(** * PresentMon data provider: the shared memory format

    A shallow embedding of [rtss_Include/PMDPSharedMemory.h].  The header
    declares the status codes, the two per-frame records, the ring slot that
    joins them and the shared region (eight [DWORD]s followed by the ring
    array).  The declarations are transcribed as C types; their layout is
    computed by the natural-alignment rule of the C compiler, and values are
    moved in and out of a byte memory through the computed offsets. *)

From Stdlib Require Import ZArith List Lia String.
From coqutil Require Import Byte Word.LittleEndianList.
From stdpp Require Import base list.
Import ListNotations.
Local Open Scope Z_scope.

(** ** C types and their layout *)

(** The types the header uses; [char_array n] is [char x[n]].  [DWORD] is a
    type of the Windows headers. *)
Inductive ctype : Type :=
| char_array (n : nat)
| uint32_t
| int32_t
| uint64_t
| double
| DWORD
| struct (ms : members)
| array (elem : ctype) (n : nat)
with members : Type :=
| mnil
| mcons (name : string) (t : ctype) (rest : members).

Scheme ctype_members_ind := Induction for ctype Sort Prop
  with members_ctype_ind := Induction for members Sort Prop.
Combined Scheme ctype_mutind from ctype_members_ind, members_ctype_ind.

Fixpoint members_of (l : list (string * ctype)) : members :=
  match l with
  | [] => mnil
  | (name, t) :: l' => mcons name t (members_of l')
  end.

(** Modelled from the spec: [DWORD] is declared in the Windows headers, not
    in this one; section 6 of the design gives every field of the region
    header as a [u32], four bytes. *)
Definition DWORD_size : Z := 4.

(** Round [off] up to the next multiple of [a]. *)
Definition align_up (off a : Z) : Z := ((off + a - 1) / a) * a.

Fixpoint alignof (t : ctype) : Z :=
  match t with
  | char_array _ => 1
  | uint32_t | int32_t => 4
  | DWORD => DWORD_size
  | uint64_t | double => 8
  | struct ms => members_align ms
  | array elem _ => alignof elem
  end
with members_align (ms : members) : Z :=
  match ms with
  | mnil => 1
  | mcons _ t rest => Z.max (alignof t) (members_align rest)
  end.

Fixpoint sizeof (t : ctype) : Z :=
  match t with
  | char_array n => Z.of_nat n
  | uint32_t | int32_t => 4
  | DWORD => DWORD_size
  | uint64_t | double => 8
  | struct ms => align_up (members_end 0 ms) (members_align ms)
  | array elem n => Z.of_nat n * sizeof elem
  end
with members_end (off : Z) (ms : members) : Z :=
  match ms with
  | mnil => off
  | mcons _ t rest => members_end (align_up off (alignof t) + sizeof t) rest
  end.

(** The alignments of the types above. *)
Definition is_alignment (a : Z) : Prop := a = 1 \/ a = 4 \/ a = 8.

(** The members of a struct with the offset the compiler gives each. *)
Fixpoint member_offsets (off : Z) (ms : members) : list (string * Z * ctype) :=
  match ms with
  | mnil => []
  | mcons name t rest =>
      let o := align_up off (alignof t) in
      (name, o, t) :: member_offsets (o + sizeof t) rest
  end.

Definition fields (t : ctype) : list (string * Z * ctype) :=
  match t with
  | struct ms => member_offsets 0 ms
  | _ => []
  end.

Definition offsetof (t : ctype) (name : string) : option Z :=
  match find (fun f => String.eqb (fst (fst f)) name) (fields t) with
  | Some f => Some (snd (fst f))
  | None => None
  end.

(** The scalar leaves of a type in declaration order, each with its
    absolute offset from [base].  A [char] array is one leaf. *)
Fixpoint leaves (base : Z) (t : ctype) : list (Z * ctype) :=
  match t with
  | struct ms => member_leaves base 0 ms
  | array elem n =>
      flat_map (fun i => leaves (base + Z.of_nat i * sizeof elem) elem) (seq 0 n)
  | _ => [(base, t)]
  end
with member_leaves (base off : Z) (ms : members) : list (Z * ctype) :=
  match ms with
  | mnil => []
  | mcons _ t rest =>
      let o := align_up off (alignof t) in
      leaves (base + o) t ++ member_leaves base (o + sizeof t) rest
  end.

(** ** The declarations of the header *)

Definition PMDP_STATUS_OK : Z := 0.
Definition PMDP_STATUS_INIT_FAILED : Z := 1.
Definition PMDP_STATUS_START_STREAM_FAILED : Z := 2.
Definition PMDP_STATUS_GET_FRAME_DATA_FAILED : Z := 3.

Section Declarations.

(** [MAX_PATH] is a constant of the Windows headers, not of this one. *)
Variable MAX_PATH : nat.

Definition PM_FRAME_DATA_V1 : ctype :=
  struct (members_of
    [ ("Application", char_array MAX_PATH);
      ("ProcessID", uint32_t);
      ("SwapChainAddress", uint64_t);
      ("Runtime", uint32_t);
      ("SyncInterval", int32_t);
      ("PresentFlags", uint32_t);
      ("Dropped", uint32_t);
      ("TimeInSeconds", double);
      ("msInPresentAPI", double);
      ("msBetweenPresents", double);
      ("AllowsTearing", uint32_t);
      ("PresentMode", uint32_t);
      ("msUntilRenderComplete", double);
      ("msUntilDisplayed", double);
      ("msBetweenDisplayChange", double);
      ("msUntilRenderStart", double);
      ("qpcTime", uint64_t);
      ("msSinceInput", double);
      ("msGpuActive", double);
      ("msGpuVideoActive", double) ]%string).

Definition PM_FRAME_DATA_V2 : ctype :=
  struct (members_of
    [ ("CPUStart", uint64_t);
      ("Frametime", double);
      ("CPUBusy", double);
      ("CPUWait", double);
      ("GPULatency", double);
      ("GPUTime", double);
      ("GPUBusy", double);
      ("VideoBusy", double);
      ("GPUWait", double);
      ("DisplayLatency", double);
      ("DisplayedTime", double);
      ("AnimationError", double);
      ("ClickToPhotonLatency", double) ]%string).

Definition PMDP_FRAME_DATA : ctype :=
  struct (members_of
    [ ("data1", PM_FRAME_DATA_V1);
      ("data2", PM_FRAME_DATA_V2) ]%string).

(** The length of [arrFrame]. *)
Definition arrFrame_length : nat := Z.to_nat 8192.

Definition PMDP_SHARED_MEMORY : ctype :=
  struct (members_of
    [ ("dwSignature", DWORD);
      ("dwVersion", DWORD);
      ("dwFrameArrEntrySize", DWORD);
      ("dwFrameArrOffset", DWORD);
      ("dwFrameArrSize", DWORD);
      ("dwFrameCount", DWORD);
      ("dwFramePos", DWORD);
      ("dwStatus", DWORD);
      ("arrFrame", array PMDP_FRAME_DATA arrFrame_length) ]%string).

End Declarations.

(** ** Byte memory *)

(** A mapped region is a sequence of bytes; offsets are counted from its
    start. *)
Definition write_bytes (off : Z) (bs : list byte) (m : list byte) : list byte :=
  take (Z.to_nat off) m ++ bs ++ drop (Z.to_nat off + length bs) m.

Definition read_bytes (off n : Z) (m : list byte) : list byte :=
  take (Z.to_nat n) (drop (Z.to_nat off) m).

(** Store one byte string per leaf, in declaration order. *)
Fixpoint store_leaves (ls : list (Z * ctype)) (vs : list (list byte))
    (m : list byte) : list byte :=
  match ls, vs with
  | (o, _) :: ls', v :: vs' => store_leaves ls' vs' (write_bytes o v m)
  | _, _ => m
  end.

Definition load_leaves (ls : list (Z * ctype)) (m : list byte) : list (list byte) :=
  map (fun l => read_bytes (fst l) (sizeof (snd l)) m) ls.

(** Leaves that follow one another without overlap between [lo] and [hi]. *)
Fixpoint chained (lo : Z) (ls : list (Z * ctype)) (hi : Z) : Prop :=
  match ls with
  | [] => lo <= hi
  | l :: ls' => lo <= fst l /\ chained (fst l + sizeof (snd l)) ls' hi
  end.

(** Each byte string has the size of the leaf it is stored in. *)
Definition fits (ls : list (Z * ctype)) (vs : list (list byte)) : Prop :=
  Forall2 (fun l v => Z.of_nat (length v) = sizeof (snd l)) ls vs.

(** Every leaf lies at a multiple of the alignment of its type. *)
Definition aligned_leaves (ls : list (Z * ctype)) : Prop :=
  Forall (fun l => (alignof (snd l) | fst l)) ls.

(** ** Scalar values *)

(** Integers are little-endian; a signed integer is stored in two's
    complement.  A [double] is carried as its 64-bit IEEE-754 image, which a
    load or a store moves without interpreting it. *)
Definition enc_u32 (z : Z) : list byte := le_split 4 z.
Definition dec_u32 (bs : list byte) : Z := le_combine bs.
Definition enc_i32 (z : Z) : list byte := le_split 4 z.
Definition dec_i32 (bs : list byte) : Z :=
  let u := le_combine bs in if u <? 2 ^ 31 then u else u - 2 ^ 32.
Definition enc_u64 (z : Z) : list byte := le_split 8 z.
Definition dec_u64 (bs : list byte) : Z := le_combine bs.
Definition enc_double (z : Z) : list byte := le_split 8 z.
Definition dec_double (bs : list byte) : Z := le_combine bs.

Definition is_u32 (z : Z) : Prop := 0 <= z < 2 ^ 32.
Definition is_i32 (z : Z) : Prop := - 2 ^ 31 <= z < 2 ^ 31.
Definition is_u64 (z : Z) : Prop := 0 <= z < 2 ^ 64.

(** ** The frame records as values *)

Record pm_frame_data_v1 : Type := {
  Application : list byte;
  ProcessID : Z;
  SwapChainAddress : Z;
  Runtime : Z;
  SyncInterval : Z;
  PresentFlags : Z;
  Dropped : Z;
  TimeInSeconds : Z;
  msInPresentAPI : Z;
  msBetweenPresents : Z;
  AllowsTearing : Z;
  PresentMode : Z;
  msUntilRenderComplete : Z;
  msUntilDisplayed : Z;
  msBetweenDisplayChange : Z;
  msUntilRenderStart : Z;
  qpcTime : Z;
  msSinceInput : Z;
  msGpuActive : Z;
  msGpuVideoActive : Z
}.

Record pm_frame_data_v2 : Type := {
  CPUStart : Z;
  Frametime : Z;
  CPUBusy : Z;
  CPUWait : Z;
  GPULatency : Z;
  GPUTime : Z;
  GPUBusy : Z;
  VideoBusy : Z;
  GPUWait : Z;
  DisplayLatency : Z;
  DisplayedTime : Z;
  AnimationError : Z;
  ClickToPhotonLatency : Z
}.

Record pmdp_frame_data : Type := {
  data1 : pm_frame_data_v1;
  data2 : pm_frame_data_v2
}.

(** The bytes of each leaf of a frame, in declaration order. *)
Definition v1_bytes (r : pm_frame_data_v1) : list (list byte) :=
  [ Application r;
    enc_u32 (ProcessID r);
    enc_u64 (SwapChainAddress r);
    enc_u32 (Runtime r);
    enc_i32 (SyncInterval r);
    enc_u32 (PresentFlags r);
    enc_u32 (Dropped r);
    enc_double (TimeInSeconds r);
    enc_double (msInPresentAPI r);
    enc_double (msBetweenPresents r);
    enc_u32 (AllowsTearing r);
    enc_u32 (PresentMode r);
    enc_double (msUntilRenderComplete r);
    enc_double (msUntilDisplayed r);
    enc_double (msBetweenDisplayChange r);
    enc_double (msUntilRenderStart r);
    enc_u64 (qpcTime r);
    enc_double (msSinceInput r);
    enc_double (msGpuActive r);
    enc_double (msGpuVideoActive r) ].

Definition v2_bytes (r : pm_frame_data_v2) : list (list byte) :=
  [ enc_u64 (CPUStart r);
    enc_double (Frametime r);
    enc_double (CPUBusy r);
    enc_double (CPUWait r);
    enc_double (GPULatency r);
    enc_double (GPUTime r);
    enc_double (GPUBusy r);
    enc_double (VideoBusy r);
    enc_double (GPUWait r);
    enc_double (DisplayLatency r);
    enc_double (DisplayedTime r);
    enc_double (AnimationError r);
    enc_double (ClickToPhotonLatency r) ].

Definition frame_bytes (r : pmdp_frame_data) : list (list byte) :=
  v1_bytes (data1 r) ++ v2_bytes (data2 r).

Definition v1_of_bytes (l : list (list byte)) : option pm_frame_data_v1 :=
  match l with
  | [ b0; b1; b2; b3; b4; b5; b6; b7; b8; b9; b10; b11; b12; b13; b14; b15;
      b16; b17; b18; b19 ] =>
      Some {| Application := b0;
              ProcessID := dec_u32 b1;
              SwapChainAddress := dec_u64 b2;
              Runtime := dec_u32 b3;
              SyncInterval := dec_i32 b4;
              PresentFlags := dec_u32 b5;
              Dropped := dec_u32 b6;
              TimeInSeconds := dec_double b7;
              msInPresentAPI := dec_double b8;
              msBetweenPresents := dec_double b9;
              AllowsTearing := dec_u32 b10;
              PresentMode := dec_u32 b11;
              msUntilRenderComplete := dec_double b12;
              msUntilDisplayed := dec_double b13;
              msBetweenDisplayChange := dec_double b14;
              msUntilRenderStart := dec_double b15;
              qpcTime := dec_u64 b16;
              msSinceInput := dec_double b17;
              msGpuActive := dec_double b18;
              msGpuVideoActive := dec_double b19 |}
  | _ => None
  end.

Definition v2_of_bytes (l : list (list byte)) : option pm_frame_data_v2 :=
  match l with
  | [ c0; c1; c2; c3; c4; c5; c6; c7; c8; c9; c10; c11; c12 ] =>
      Some {| CPUStart := dec_u64 c0;
              Frametime := dec_double c1;
              CPUBusy := dec_double c2;
              CPUWait := dec_double c3;
              GPULatency := dec_double c4;
              GPUTime := dec_double c5;
              GPUBusy := dec_double c6;
              VideoBusy := dec_double c7;
              GPUWait := dec_double c8;
              DisplayLatency := dec_double c9;
              DisplayedTime := dec_double c10;
              AnimationError := dec_double c11;
              ClickToPhotonLatency := dec_double c12 |}
  | _ => None
  end.

Definition frame_of_bytes (l : list (list byte)) : option pmdp_frame_data :=
  match v1_of_bytes (take 20 l), v2_of_bytes (drop 20 l) with
  | Some a, Some b => Some {| data1 := a; data2 := b |}
  | _, _ => None
  end.

(** ** Frames in memory *)

Section Frames.

Variable MAX_PATH : nat.

Definition wf_v1 (r : pm_frame_data_v1) : Prop :=
  length (Application r) = MAX_PATH /\
  is_u32 (ProcessID r) /\ is_u64 (SwapChainAddress r) /\ is_u32 (Runtime r) /\
  is_i32 (SyncInterval r) /\ is_u32 (PresentFlags r) /\ is_u32 (Dropped r) /\
  is_u64 (TimeInSeconds r) /\ is_u64 (msInPresentAPI r) /\
  is_u64 (msBetweenPresents r) /\ is_u32 (AllowsTearing r) /\
  is_u32 (PresentMode r) /\ is_u64 (msUntilRenderComplete r) /\
  is_u64 (msUntilDisplayed r) /\ is_u64 (msBetweenDisplayChange r) /\
  is_u64 (msUntilRenderStart r) /\ is_u64 (qpcTime r) /\
  is_u64 (msSinceInput r) /\ is_u64 (msGpuActive r) /\
  is_u64 (msGpuVideoActive r).

Definition wf_v2 (r : pm_frame_data_v2) : Prop :=
  is_u64 (CPUStart r) /\ is_u64 (Frametime r) /\ is_u64 (CPUBusy r) /\
  is_u64 (CPUWait r) /\ is_u64 (GPULatency r) /\ is_u64 (GPUTime r) /\
  is_u64 (GPUBusy r) /\ is_u64 (VideoBusy r) /\ is_u64 (GPUWait r) /\
  is_u64 (DisplayLatency r) /\ is_u64 (DisplayedTime r) /\
  is_u64 (AnimationError r) /\ is_u64 (ClickToPhotonLatency r).

(** The values a C object of type [PMDP_FRAME_DATA] can hold. *)
Definition wf_frame (r : pmdp_frame_data) : Prop :=
  wf_v1 (data1 r) /\ wf_v2 (data2 r).

(** Assigning every field of the frame at address [base], and reading
    every field back, each through its offset in the layout. *)
Definition write_frame (base : Z) (r : pmdp_frame_data) (m : list byte) : list byte :=
  store_leaves (leaves base (PMDP_FRAME_DATA MAX_PATH)) (frame_bytes r) m.

Definition read_frame (base : Z) (m : list byte) : option pmdp_frame_data :=
  frame_of_bytes (load_leaves (leaves base (PMDP_FRAME_DATA MAX_PATH)) m).

(** The address of [arrFrame[i]] in the shared region. *)
Definition arrFrame_offset : Z :=
  match offsetof (PMDP_SHARED_MEMORY MAX_PATH) "arrFrame" with
  | Some o => o
  | None => 0
  end.

Definition slot_offset (i : Z) : Z :=
  arrFrame_offset + i * sizeof (PMDP_FRAME_DATA MAX_PATH).

(** A frame with every byte zero. *)
Definition zero_v1 : pm_frame_data_v1 :=
  {| Application := repeat Byte.x00 MAX_PATH;
     ProcessID := 0; SwapChainAddress := 0; Runtime := 0; SyncInterval := 0;
     PresentFlags := 0; Dropped := 0; TimeInSeconds := 0; msInPresentAPI := 0;
     msBetweenPresents := 0; AllowsTearing := 0; PresentMode := 0;
     msUntilRenderComplete := 0; msUntilDisplayed := 0;
     msBetweenDisplayChange := 0; msUntilRenderStart := 0; qpcTime := 0;
     msSinceInput := 0; msGpuActive := 0; msGpuVideoActive := 0 |}.

Definition zero_v2 : pm_frame_data_v2 :=
  {| CPUStart := 0; Frametime := 0; CPUBusy := 0; CPUWait := 0;
     GPULatency := 0; GPUTime := 0; GPUBusy := 0; VideoBusy := 0; GPUWait := 0;
     DisplayLatency := 0; DisplayedTime := 0; AnimationError := 0;
     ClickToPhotonLatency := 0 |}.

Definition zero_frame : pmdp_frame_data :=
  {| data1 := zero_v1; data2 := zero_v2 |}.

End Frames.

(** The application name is a C string in the [Application] buffer: the
    bytes before the first NUL, if the buffer holds one. *)
Fixpoint cstring (buf : list byte) : option (list byte) :=
  match buf with
  | [] => None
  | b :: rest =>
      if Byte.eqb b Byte.x00 then Some []
      else match cstring rest with
           | Some s => Some (b :: s)
           | None => None
           end
  end.

(** ** The shared region as a value *)

Record pmdp_shared_memory : Type := {
  dwSignature : Z;
  dwVersion : Z;
  dwFrameArrEntrySize : Z;
  dwFrameArrOffset : Z;
  dwFrameArrSize : Z;
  dwFrameCount : Z;
  dwFramePos : Z;
  dwStatus : Z;
  arrFrame : list pmdp_frame_data
}.

Definition set_dwSignature (v : Z) (s : pmdp_shared_memory) : pmdp_shared_memory :=
  {| dwSignature := v; dwVersion := dwVersion s;
     dwFrameArrEntrySize := dwFrameArrEntrySize s;
     dwFrameArrOffset := dwFrameArrOffset s; dwFrameArrSize := dwFrameArrSize s;
     dwFrameCount := dwFrameCount s; dwFramePos := dwFramePos s;
     dwStatus := dwStatus s; arrFrame := arrFrame s |}.

(** [dwVersion] is a [DWORD]: an assignment keeps the low 32 bits. *)
Definition set_dwVersion (v : Z) (s : pmdp_shared_memory) : pmdp_shared_memory :=
  {| dwSignature := dwSignature s; dwVersion := v mod 2 ^ 32;
     dwFrameArrEntrySize := dwFrameArrEntrySize s;
     dwFrameArrOffset := dwFrameArrOffset s; dwFrameArrSize := dwFrameArrSize s;
     dwFrameCount := dwFrameCount s; dwFramePos := dwFramePos s;
     dwStatus := dwStatus s; arrFrame := arrFrame s |}.

Definition set_dwStatus (v : Z) (s : pmdp_shared_memory) : pmdp_shared_memory :=
  {| dwSignature := dwSignature s; dwVersion := dwVersion s;
     dwFrameArrEntrySize := dwFrameArrEntrySize s;
     dwFrameArrOffset := dwFrameArrOffset s; dwFrameArrSize := dwFrameArrSize s;
     dwFrameCount := dwFrameCount s; dwFramePos := dwFramePos s;
     dwStatus := v; arrFrame := arrFrame s |}.

Definition set_dwFrameCount (v : Z) (s : pmdp_shared_memory) : pmdp_shared_memory :=
  {| dwSignature := dwSignature s; dwVersion := dwVersion s;
     dwFrameArrEntrySize := dwFrameArrEntrySize s;
     dwFrameArrOffset := dwFrameArrOffset s; dwFrameArrSize := dwFrameArrSize s;
     dwFrameCount := v; dwFramePos := dwFramePos s;
     dwStatus := dwStatus s; arrFrame := arrFrame s |}.

Definition set_dwFramePos (v : Z) (s : pmdp_shared_memory) : pmdp_shared_memory :=
  {| dwSignature := dwSignature s; dwVersion := dwVersion s;
     dwFrameArrEntrySize := dwFrameArrEntrySize s;
     dwFrameArrOffset := dwFrameArrOffset s; dwFrameArrSize := dwFrameArrSize s;
     dwFrameCount := dwFrameCount s; dwFramePos := v;
     dwStatus := dwStatus s; arrFrame := arrFrame s |}.

Definition set_arrFrame (i : nat) (r : pmdp_frame_data) (s : pmdp_shared_memory)
    : pmdp_shared_memory :=
  {| dwSignature := dwSignature s; dwVersion := dwVersion s;
     dwFrameArrEntrySize := dwFrameArrEntrySize s;
     dwFrameArrOffset := dwFrameArrOffset s; dwFrameArrSize := dwFrameArrSize s;
     dwFrameCount := dwFrameCount s; dwFramePos := dwFramePos s;
     dwStatus := dwStatus s; arrFrame := <[i := r]> (arrFrame s) |}.

(** *** The signature *)

(** The value of a multi-character constant as the Microsoft compiler (and
    GCC) give it: the first character is the most significant byte. *)
Definition multichar (s : string) : Z :=
  fold_left (fun acc c => acc * 256 + Z.of_N (Ascii.N_of_ascii c))
            (list_ascii_of_string s) 0.

(** ['PMDP'] and [0xDEAD]. *)
Definition SIGNATURE_PMDP : Z := multichar "PMDP".
Definition SIGNATURE_DEAD : Z := 0xDEAD.

(** What the comment on [dwSignature] says a signature means. *)
Inductive signature_state : Type :=
| SigValid            (* initialized and contains valid data *)
| SigDead             (* marked for deallocation, no longer valid *)
| SigNotInitialized.  (* otherwise *)

Definition signature_state_of (sig : Z) : signature_state :=
  if sig =? SIGNATURE_PMDP then SigValid
  else if sig =? SIGNATURE_DEAD then SigDead
  else SigNotInitialized.

(** *** The version: [(major<<16) + minor] *)

Definition make_version (major minor : Z) : Z := Z.shiftl major 16 + minor.
Definition version_major (v : Z) : Z := Z.shiftr v 16.
Definition version_minor (v : Z) : Z := Z.land v 0xFFFF.

(** *** The status *)

Inductive pmdp_status : Type :=
| STATUS_OK
| STATUS_INIT_FAILED
| STATUS_START_STREAM_FAILED
| STATUS_GET_FRAME_DATA_FAILED.

Definition status_code (st : pmdp_status) : Z :=
  match st with
  | STATUS_OK => PMDP_STATUS_OK
  | STATUS_INIT_FAILED => PMDP_STATUS_INIT_FAILED
  | STATUS_START_STREAM_FAILED => PMDP_STATUS_START_STREAM_FAILED
  | STATUS_GET_FRAME_DATA_FAILED => PMDP_STATUS_GET_FRAME_DATA_FAILED
  end.

Definition status_of_code (c : Z) : option pmdp_status :=
  if c =? PMDP_STATUS_OK then Some STATUS_OK
  else if c =? PMDP_STATUS_INIT_FAILED then Some STATUS_INIT_FAILED
  else if c =? PMDP_STATUS_START_STREAM_FAILED then Some STATUS_START_STREAM_FAILED
  else if c =? PMDP_STATUS_GET_FRAME_DATA_FAILED then Some STATUS_GET_FRAME_DATA_FAILED
  else None.

(** The life cycle of a region as a consumer sees it: the signature says
    whether the region is not yet initialized, valid or torn down, and only
    a valid region has a status. *)
Inductive lifecycle : Type :=
| Uninitialized
| Valid (st : option pmdp_status)
| Dead.

Definition lifecycle_of (s : pmdp_shared_memory) : lifecycle :=
  match signature_state_of (dwSignature s) with
  | SigNotInitialized => Uninitialized
  | SigValid => Valid (status_of_code (dwStatus s))
  | SigDead => Dead
  end.

(** ** The producer and the consumer

    The header declares data only: no producer and no consumer is part of it.
    The operations below are the ones the design document gives, written
    over the region the header declares.  The frame counter the producer
    advances is [dwFrameCount] (the header: "total frame count in ring buffer
    array") and its write cursor is [dwFramePos] ("frame position in ring
    buffer array"); both are [DWORD]s, so they wrap at [2^32]. *)

(** Modelled from the spec: the [totalFrameCount] of section 3, the count of
    frames written, kept in [dwFrameCount]. *)
Definition totalFrameCount (s : pmdp_shared_memory) : Z := dwFrameCount s.

(** Modelled from the spec: the [writeCursor] of section 3, the index of the
    slot the next append writes, kept in [dwFramePos]. *)
Definition writeCursor (s : pmdp_shared_memory) : Z := dwFramePos s.

(** The number of slots of the ring array. *)
Definition capacity (s : pmdp_shared_memory) : Z := Z.of_nat (length (arrFrame s)).

(** Modelled from the spec: the results of the consumer's [validate]
    (sections 4.1, 7 and 8): a signature other than the valid magic is an
    [IncompatibleSignature] failure, which is [TornDown] for the teardown
    magic and [NotReady] for anything else. *)
Inductive signature_failure : Type :=
| NotReady
| TornDown.

(** Modelled from the spec: the [CompatibilityResult] of section 4.1. *)
Inductive CompatibilityResult : Type :=
| OK
| IncompatibleSignature (why : signature_failure)
| IncompatibleMajorVersion.

(** Modelled from the spec: [validate(header)] of section 4.1, for a reader
    built against major version [M].  The signature is looked at first; the
    version is read only under a valid signature. *)
Definition validate (M : Z) (s : pmdp_shared_memory) : CompatibilityResult :=
  match signature_state_of (dwSignature s) with
  | SigDead => IncompatibleSignature TornDown
  | SigNotInitialized => IncompatibleSignature NotReady
  | SigValid =>
      if version_major (dwVersion s) =? M then OK else IncompatibleMajorVersion
  end.

(** Modelled from the spec: [teardown(header)] of section 4.1; its one and
    last write sets the signature to the teardown magic. *)
Definition teardown (s : pmdp_shared_memory) : pmdp_shared_memory :=
  set_dwSignature SIGNATURE_DEAD s.

(** Modelled from the spec: the first write of [appendFrame(record)] of
    section 4.2, the record into the slot at the cursor. *)
Definition write_slot (r : pmdp_frame_data) (s : pmdp_shared_memory)
    : pmdp_shared_memory :=
  set_arrFrame (Z.to_nat (dwFramePos s)) r s.

(** Modelled from the spec: the second write of [appendFrame], step (a) of
    section 4.2: the frame counter goes up by one.  The counter is a
    [DWORD]. *)
Definition bump_count (s : pmdp_shared_memory) : pmdp_shared_memory :=
  set_dwFrameCount ((dwFrameCount s + 1) mod 2 ^ 32) s.

(** Modelled from the spec: the third write of [appendFrame], step (b) of
    section 4.2: [writeCursor = (writeCursor + 1) mod capacity], computed on
    [DWORD]s. *)
Definition advance_cursor (s : pmdp_shared_memory) : pmdp_shared_memory :=
  set_dwFramePos (((dwFramePos s + 1) mod 2 ^ 32) mod capacity s) s.


(** Modelled from the spec: [appendFrame(record)] of section 4.2. *)
Definition appendFrame (r : pmdp_frame_data) (s : pmdp_shared_memory)
    : pmdp_shared_memory :=
  advance_cursor (bump_count (write_slot r s)).

(** Modelled from the spec: a sequence of appends, first record first. *)
Definition appendFrames (rs : list pmdp_frame_data) (s : pmdp_shared_memory)
    : pmdp_shared_memory :=
  fold_left (fun acc r => appendFrame r acc) rs s.


Section Producer.

Variable MAX_PATH : nat.

(** Modelled from the spec: [initialize(capacity, entrySize)] of section
    4.1.  The region is zeroed, the layout descriptors (the size of an entry,
    the offset of the array and its size in bytes, as section 6 gives them),
    the version and the status are written, and the signature is written
    last.  The descriptors are [DWORD]s. *)
Definition initialize_unpublished (cap entrySize : Z) : pmdp_shared_memory :=
  {| dwSignature := 0;
     dwVersion := make_version 1 0;
     dwFrameArrEntrySize := entrySize mod 2 ^ 32;
     dwFrameArrOffset := arrFrame_offset MAX_PATH;
     dwFrameArrSize := (cap * entrySize) mod 2 ^ 32;
     dwFrameCount := 0;
     dwFramePos := 0;
     dwStatus := PMDP_STATUS_OK;
     arrFrame := repeat (zero_frame MAX_PATH) (Z.to_nat cap) |}.

(** Modelled from the spec: the end of [initialize], the write of the valid
    signature that publishes the region. *)
Definition initialize (cap entrySize : Z) : pmdp_shared_memory :=
  set_dwSignature SIGNATURE_PMDP (initialize_unpublished cap entrySize).


End Producer.

(** ** The header fields in memory *)

(** A member of a struct by its name, with its offset and type. *)
Definition field_of (t : ctype) (name : string) : option (string * Z * ctype) :=
  find (fun f => String.eqb (fst (fst f)) name) (fields t).

Definition header_field_names : list string :=
  [ "dwSignature"; "dwVersion"; "dwFrameArrEntrySize"; "dwFrameArrOffset";
    "dwFrameArrSize"; "dwFrameCount"; "dwFramePos"; "dwStatus" ]%string.

Section HeaderFields.

Variable MAX_PATH : nat.

(** Reading and assigning one [DWORD] member of the region by its name.  A
    name that is no [DWORD] member of [PMDP_SHARED_MEMORY] reads as nothing
    and writes nothing. *)
Definition read_field (name : string) (m : list byte) : option Z :=
  match field_of (PMDP_SHARED_MEMORY MAX_PATH) name with
  | Some (_, o, DWORD) => Some (dec_u32 (read_bytes o DWORD_size m))
  | _ => None
  end.

Definition write_field (name : string) (v : Z) (m : list byte) : list byte :=
  match field_of (PMDP_SHARED_MEMORY MAX_PATH) name with
  | Some (_, o, DWORD) => write_bytes o (enc_u32 v) m
  | _ => m
  end.

(** The offset of [SwapChainAddress], the first 8-byte member of the base
    record: the name and the process id take [MAX_PATH + 4] bytes. *)
Definition SwapChainAddress_offset : Z := align_up (Z.of_nat MAX_PATH + 4) 8.

End HeaderFields.

(** The types stored as one leaf, and the member lists made of them. *)
Definition scalar (t : ctype) : bool :=
  match t with
  | struct _ | array _ _ => false
  | _ => true
  end.

Fixpoint members_scalar (ms : members) : bool :=
  match ms with
  | mnil => true
  | mcons _ t rest => scalar t && members_scalar rest
  end.

(** The byte ranges [lo, hi) and [lo', hi') do not meet. *)
Definition apart (lo hi lo' hi' : Z) : Prop := hi <= lo' \/ hi' <= lo.

(** ** Sample data

    A frame and a memory to run the definitions on, with [MAX_PATH] at the
    value of the Windows headers. *)

Definition MAX_PATH_windows : nat := 260.

(** A [char] buffer of [n] bytes holding [name] and then NULs. *)
Definition c_buffer (n : nat) (name : list byte) : list byte :=
  take n (name ++ repeat Byte.x00 n).

Definition sample_v1 : pm_frame_data_v1 :=
  {| Application := c_buffer MAX_PATH_windows (list_byte_of_string "game.exe");
     ProcessID := 4242; SwapChainAddress := 0x7FF6A1B2C3D4; Runtime := 1;
     SyncInterval := -1; PresentFlags := 512; Dropped := 0;
     TimeInSeconds := 0x4028AE147AE147AE; msInPresentAPI := 0x3FD3333333333333;
     msBetweenPresents := 0x4030AAAAAAAAAAAB; AllowsTearing := 1;
     PresentMode := 3; msUntilRenderComplete := 0x4020000000000000;
     msUntilDisplayed := 0x4031000000000000;
     msBetweenDisplayChange := 0x4030AAAAAAAAAAAB;
     msUntilRenderStart := 0xBFF0000000000000; qpcTime := 123456789012;
     msSinceInput := 0; msGpuActive := 0x401C000000000000;
     msGpuVideoActive := 0 |}.

Definition sample_v2 : pm_frame_data_v2 :=
  {| CPUStart := 123456780000; Frametime := 0x4030AAAAAAAAAAAB;
     CPUBusy := 0x4010000000000000; CPUWait := 0x4028000000000000;
     GPULatency := 0x3FF0000000000000; GPUTime := 0x401C000000000000;
     GPUBusy := 0x401C000000000000; VideoBusy := 0;
     GPUWait := 0x4022000000000000; DisplayLatency := 0x4031000000000000;
     DisplayedTime := 0x4030AAAAAAAAAAAB; AnimationError := 0x8000000000000000;
     ClickToPhotonLatency := 0x7FF8000000000000 |}.

Definition sample_frame : pmdp_frame_data :=
  {| data1 := sample_v1; data2 := sample_v2 |}.

(** A memory of the size of the header and two slots, filled with [0xCC]. *)
Definition sample_memory : list byte :=
  repeat Byte.xcc (Z.to_nat (32 + 2 * 488)).

(** A region of four slots, for running the producer. *)
Definition sample_region : pmdp_shared_memory :=
  initialize MAX_PATH_windows 4 488.


(** A torn-down region that a producer of major version 2 has left. *)
Definition sample_dead_v2 : pmdp_shared_memory :=
  teardown (set_dwVersion (make_version 2 0) sample_region).

(** * Theorems *)

(** ** Alignment arithmetic *)

Lemma align_up_ge (off a : Z) : 0 < a -> off <= align_up off a.
Proof. unfold align_up. intros Ha. Z.div_mod_to_equations. nia. Qed.

Lemma align_up_divide (off a : Z) : (a | align_up off a).
Proof. unfold align_up. apply Z.divide_factor_r. Qed.

Lemma align_up_fixed (off a : Z) : 0 < a -> (a | off) -> align_up off a = off.
Proof.
  intros Ha [q ->]. unfold align_up.
  replace (q * a + a - 1) with (a - 1 + q * a) by lia.
  rewrite Z.div_add by lia. rewrite Z.div_small by lia. lia.
Qed.

Lemma is_alignment_max a b : is_alignment a -> is_alignment b -> is_alignment (Z.max a b).
Proof. unfold is_alignment. intros [-> | [-> | ->]] [-> | [-> | ->]]; cbn; auto. Qed.

Lemma is_alignment_pos a : is_alignment a -> 0 < a.
Proof. unfold is_alignment. lia. Qed.

Lemma is_alignment_divide_max a b :
  is_alignment a -> is_alignment b -> (a | Z.max a b) /\ (b | Z.max a b).
Proof.
  unfold is_alignment.
  intros [-> | [-> | ->]] [-> | [-> | ->]]; cbn; split;
    solve [ apply Z.divide_refl | exists 4; reflexivity | exists 8; reflexivity
          | exists 2; reflexivity | exists 1; reflexivity ].
Qed.

Lemma alignof_is_alignment :
  (forall t, is_alignment (alignof t)) /\
  (forall ms, is_alignment (members_align ms)).
Proof.
  apply ctype_mutind; cbn; intros; unfold is_alignment in *; auto.
  apply is_alignment_max; assumption.
Qed.

Lemma alignof_pos t : 0 < alignof t.
Proof. apply is_alignment_pos, alignof_is_alignment. Qed.

Lemma members_align_pos ms : 0 < members_align ms.
Proof. apply is_alignment_pos, alignof_is_alignment. Qed.

Lemma sizeof_members_end_nonneg :
  (forall t, 0 <= sizeof t) /\
  (forall ms, forall off, off <= members_end off ms).
Proof.
  apply ctype_mutind; cbn [sizeof members_end]; unfold DWORD_size; try lia.
  - intros ms IH.
    pose proof (IH 0).
    pose proof (align_up_ge (members_end 0 ms) (members_align ms)
                  (members_align_pos ms)). lia.
  - intros name t IHt rest IH off.
    pose proof (IH (align_up off (alignof t) + sizeof t)).
    pose proof (align_up_ge off (alignof t) (alignof_pos t)). lia.
Qed.

Lemma sizeof_nonneg t : 0 <= sizeof t.
Proof. apply sizeof_members_end_nonneg. Qed.

Lemma sizeof_aligned t : (alignof t | sizeof t).
Proof.
  induction t; cbn; try apply Z.divide_refl.
  - apply Z.divide_1_l.
  - apply align_up_divide.
  - apply Z.divide_mul_r. assumption.
Qed.



(** ** The sizes at the value [MAX_PATH] has on Windows *)

Example sizeof_V1_260 : sizeof (PM_FRAME_DATA_V1 MAX_PATH_windows) = 384.
Proof. reflexivity. Qed.

Example sizeof_FRAME_260 : sizeof (PMDP_FRAME_DATA MAX_PATH_windows) = 488.
Proof. reflexivity. Qed.

Example sizeof_SHARED_260 :
  sizeof (PMDP_SHARED_MEMORY MAX_PATH_windows) = 3997728.
Proof. reflexivity. Qed.

Example offsets_V1_260 :
  map (fun f => snd (fst f)) (fields (PM_FRAME_DATA_V1 MAX_PATH_windows)) =
  [0; 260; 264; 272; 276; 280; 284; 288; 296; 304; 312; 316; 320; 328; 336;
   344; 352; 360; 368; 376].
Proof. reflexivity. Qed.

(** At 260 the fields fill the record: no byte of a slot is padding. *)
Example no_padding_260 :
  fold_right Z.add 0
    (map (fun l => sizeof (snd l)) (leaves 0 (PMDP_FRAME_DATA MAX_PATH_windows)))
  = sizeof (PMDP_FRAME_DATA MAX_PATH_windows).
Proof. reflexivity. Qed.

(** One character more and the compiler pads after the name and after
    [PresentMode]. *)
Example offsets_V1_261 :
  map (fun f => snd (fst f)) (fields (PM_FRAME_DATA_V1 261)) =
  [0; 264; 272; 280; 284; 288; 292; 296; 304; 312; 320; 324; 328; 336; 344;
   352; 360; 368; 376; 384].
Proof. reflexivity. Qed.

Example sizeof_FRAME_261 : sizeof (PMDP_FRAME_DATA 261) = 496.
Proof. reflexivity. Qed.

Example sample_name :
  cstring (Application sample_v1) = Some (list_byte_of_string "game.exe").
Proof. reflexivity. Qed.

Example sample_slot_bytes :
  read_bytes (520 + 260) 28
    (write_frame MAX_PATH_windows 520 sample_frame sample_memory) =
  [ Byte.x92; Byte.x10; Byte.x00; Byte.x00;
    Byte.xd4; Byte.xc3; Byte.xb2; Byte.xa1; Byte.xf6; Byte.x7f; Byte.x00; Byte.x00;
    Byte.x01; Byte.x00; Byte.x00; Byte.x00;
    Byte.xff; Byte.xff; Byte.xff; Byte.xff;
    Byte.x00; Byte.x02; Byte.x00; Byte.x00;
    Byte.x00; Byte.x00; Byte.x00; Byte.x00 ].
Proof. vm_compute. reflexivity. Qed.

(** ** Byte memory *)

Lemma length_write_bytes off bs (m : list byte) :
  0 <= off -> off + Z.of_nat (length bs) <= Z.of_nat (length m) ->
  length (write_bytes off bs m) = length m.
Proof.
  intros Hoff Hlen. unfold write_bytes.
  rewrite !length_app, length_take, length_drop. lia.
Qed.

Lemma read_write_same off bs (m : list byte) :
  0 <= off -> off + Z.of_nat (length bs) <= Z.of_nat (length m) ->
  read_bytes off (Z.of_nat (length bs)) (write_bytes off bs m) = bs.
Proof.
  intros Hoff Hlen. unfold read_bytes, write_bytes.
  rewrite drop_app_length' by (rewrite length_take; lia).
  rewrite Nat2Z.id. apply take_app_length.
Qed.

Lemma read_write_before o n off bs (m : list byte) :
  0 <= o -> 0 <= n -> o + n <= off ->
  off + Z.of_nat (length bs) <= Z.of_nat (length m) ->
  read_bytes o n (write_bytes off bs m) = read_bytes o n m.
Proof.
  intros Ho Hn Hle Hlen. unfold read_bytes, write_bytes.
  rewrite drop_app_le by (rewrite length_take; lia).
  rewrite take_app_le by (rewrite length_drop, length_take; lia).
  rewrite <- (take_drop (Z.to_nat off) m) at 2.
  rewrite drop_app_le by (rewrite length_take; lia).
  rewrite take_app_le by (rewrite length_drop, length_take; lia).
  reflexivity.
Qed.

Lemma chained_le lo ls hi : chained lo ls hi -> lo <= hi.
Proof.
  revert lo. induction ls as [|[o t] ls IH]; cbn; intros lo H; [exact H|].
  destruct H as [H1 H2]. apply IH in H2. pose proof (sizeof_nonneg t). lia.
Qed.

Lemma chained_weaken lo lo' ls hi hi' :
  lo' <= lo -> hi <= hi' -> chained lo ls hi -> chained lo' ls hi'.
Proof.
  revert lo lo'. induction ls as [|[o t] ls IH]; cbn; intros lo lo' H1 H2 H.
  - lia.
  - destruct H as [Ha Hb]. split; [lia|]. eapply IH; [| exact H2 | exact Hb]. lia.
Qed.

Lemma chained_app lo l1 mid l2 hi :
  chained lo l1 mid -> chained mid l2 hi -> chained lo (l1 ++ l2) hi.
Proof.
  revert lo. induction l1 as [|[o t] l1 IH]; cbn; intros lo H1 H2.
  - eapply chained_weaken; [exact H1 | apply Z.le_refl | exact H2].
  - destruct H1 as [Ha Hb]. split; [exact Ha|]. apply IH; assumption.
Qed.

Lemma length_store_leaves ls : forall vs (m : list byte) lo hi,
  chained lo ls hi -> 0 <= lo -> hi <= Z.of_nat (length m) -> fits ls vs ->
  length (store_leaves ls vs m) = length m.
Proof.
  induction ls as [|[o t] ls IH]; intros vs m lo hi Hc Hlo Hhi Hf.
  - reflexivity.
  - inversion Hf as [|? v ? vs' Hv Hf']; subst. cbn in *.
    destruct Hc as [Ha Hb]. pose proof (chained_le _ _ _ Hb) as Hle.
    assert (Hw : length (write_bytes o v m) = length m)
      by (apply length_write_bytes; lia).
    rewrite (IH vs' _ (o + sizeof t) hi); auto; try lia.
Qed.

Lemma store_leaves_before ls : forall vs (m : list byte) lo hi o n,
  chained lo ls hi -> hi <= Z.of_nat (length m) -> fits ls vs ->
  0 <= o -> 0 <= n -> o + n <= lo ->
  read_bytes o n (store_leaves ls vs m) = read_bytes o n m.
Proof.
  induction ls as [|[o' t] ls IH]; intros vs m lo hi o n Hc Hhi Hf Ho Hn Hle.
  - reflexivity.
  - inversion Hf as [|? v ? vs' Hv Hf']; subst. cbn in *.
    destruct Hc as [Ha Hb]. pose proof (chained_le _ _ _ Hb) as Hle'.
    pose proof (sizeof_nonneg t) as Hs.
    assert (Hw : length (write_bytes o' v m) = length m)
      by (apply length_write_bytes; lia).
    rewrite (IH vs' _ (o' + sizeof t) hi); auto; try lia.
    apply read_write_before; lia.
Qed.

(** Storing the leaves of a region one after the other and loading them
    back gives the stored bytes. *)
Lemma load_store_leaves ls : forall vs (m : list byte) lo hi,
  chained lo ls hi -> 0 <= lo -> hi <= Z.of_nat (length m) -> fits ls vs ->
  load_leaves ls (store_leaves ls vs m) = vs.
Proof.
  induction ls as [|[o t] ls IH]; intros vs m lo hi Hc Hlo Hhi Hf.
  - inversion Hf. reflexivity.
  - inversion Hf as [|? v ? vs' Hv Hf']; subst. cbn in *.
    destruct Hc as [Ha Hb]. pose proof (chained_le _ _ _ Hb) as Hle.
    pose proof (sizeof_nonneg t) as Hs.
    assert (Hw : length (write_bytes o v m) = length m)
      by (apply length_write_bytes; lia).
    f_equal.
    + rewrite (store_leaves_before ls vs' _ (o + sizeof t) hi); auto; try lia.
      rewrite <- Hv. apply read_write_same; lia.
    + apply (IH vs' _ (o + sizeof t) hi); auto; lia.
Qed.

(** ** The leaves of a type do not overlap and are naturally aligned *)

Lemma flat_map_leaves_chained elem base n :
  (forall b, chained b (leaves b elem) (b + sizeof elem)) ->
  forall a,
    chained (base + Z.of_nat a * sizeof elem)
      (flat_map (fun i => leaves (base + Z.of_nat i * sizeof elem) elem) (seq a n))
      (base + Z.of_nat (a + n) * sizeof elem).
Proof.
  intros IH. induction n as [|n IHn]; intros a; cbn [seq flat_map chained].
  - rewrite Nat.add_0_r. lia.
  - eapply chained_app; [apply IH|].
    eapply chained_weaken; [| | apply (IHn (S a))]; lia.
Qed.

Lemma leaves_chained :
  (forall t base, chained base (leaves base t) (base + sizeof t)) /\
  (forall ms base off,
     chained (base + off) (member_leaves base off ms) (base + members_end off ms)).
Proof.
  apply ctype_mutind; intros; cbn [leaves member_leaves chained fst snd];
    try (split; lia).
  - eapply chained_weaken; [| | apply (H base 0)]; [lia|]. cbn [sizeof].
    pose proof (align_up_ge (members_end 0 ms) _ (members_align_pos ms)). lia.
  - pose proof (flat_map_leaves_chained elem base n H 0%nat) as Hc.
    cbn [sizeof]. eapply chained_weaken; [| | exact Hc]; lia.
  - cbn [members_end]. lia.
  - cbn [members_end]. pose proof (align_up_ge off _ (alignof_pos t)).
    eapply chained_app.
    + eapply chained_weaken; [| | apply H]; [lia | apply Z.le_refl].
    + eapply chained_weaken; [| | apply H0]; lia.
Qed.

Lemma leaves_aligned :
  (forall t base, (alignof t | base) -> aligned_leaves (leaves base t)) /\
  (forall ms base off,
     (members_align ms | base) -> aligned_leaves (member_leaves base off ms)).
Proof.
  unfold aligned_leaves.
  apply ctype_mutind; intros; cbn [leaves member_leaves];
    try (constructor; [assumption | constructor]).
  - apply H. assumption.
  - cbn [alignof] in H0. generalize 0%nat as a.
    induction n as [|n IHn]; intros a; cbn [seq flat_map]; [constructor|].
    apply Forall_app. split; [|apply IHn].
    apply H. apply Z.divide_add_r; [assumption|].
    apply Z.divide_mul_r, sizeof_aligned.
  - constructor.
  - cbn [members_align] in H1.
    destruct (is_alignment_divide_max (alignof t) (members_align rest))
      as [Ht Hr]; try apply alignof_is_alignment.
    apply Forall_app. split.
    + apply H. apply Z.divide_add_r.
      * eapply Z.divide_trans; eassumption.
      * apply align_up_divide.
    + apply H0. eapply Z.divide_trans; eassumption.
Qed.

(** ** Scalars survive a store and a load *)

Lemma dec_enc_u32 z : is_u32 z -> dec_u32 (enc_u32 z) = z.
Proof.
  unfold is_u32, dec_u32, enc_u32. intros H.
  rewrite le_combine_split. apply Z.mod_small. cbn. lia.
Qed.

Lemma dec_enc_u64 z : is_u64 z -> dec_u64 (enc_u64 z) = z.
Proof.
  unfold is_u64, dec_u64, enc_u64. intros H.
  rewrite le_combine_split. apply Z.mod_small. cbn. lia.
Qed.

Lemma dec_enc_double z : is_u64 z -> dec_double (enc_double z) = z.
Proof. exact (dec_enc_u64 z). Qed.

Lemma dec_enc_i32 z : is_i32 z -> dec_i32 (enc_i32 z) = z.
Proof.
  unfold is_i32, dec_i32, enc_i32. intros H.
  rewrite le_combine_split. change (2 ^ (Z.of_nat 4 * 8)) with (2 ^ 32).
  destruct (Z.ltb_spec (z mod 2 ^ 32) (2 ^ 31)) as [Hlt|Hge];
    Z.div_mod_to_equations; lia.
Qed.

Lemma length_enc_u32 z : length (enc_u32 z) = 4%nat.
Proof. apply length_le_split. Qed.
Lemma length_enc_i32 z : length (enc_i32 z) = 4%nat.
Proof. apply length_le_split. Qed.
Lemma length_enc_u64 z : length (enc_u64 z) = 8%nat.
Proof. apply length_le_split. Qed.
Lemma length_enc_double z : length (enc_double z) = 8%nat.
Proof. apply length_le_split. Qed.

(** ** A frame survives a store and a load *)

#[local] Arguments enc_u32 : simpl never.
#[local] Arguments enc_i32 : simpl never.
#[local] Arguments enc_u64 : simpl never.
#[local] Arguments enc_double : simpl never.
#[local] Arguments dec_u32 : simpl never.
#[local] Arguments dec_i32 : simpl never.
#[local] Arguments dec_u64 : simpl never.
#[local] Arguments dec_double : simpl never.

Section FrameProofs.

Variable MAX_PATH : nat.

Lemma frame_bytes_fits base r :
  wf_frame MAX_PATH r ->
  fits (leaves base (PMDP_FRAME_DATA MAX_PATH)) (frame_bytes r).
Proof.
  intros [H1 H2]. destruct H1 as [Hname _].
  unfold fits, frame_bytes, v1_bytes, v2_bytes, PMDP_FRAME_DATA,
    PM_FRAME_DATA_V1, PM_FRAME_DATA_V2.
  cbn [leaves member_leaves members_of app].
  repeat (apply Forall2_cons; split); try apply Forall2_nil;
    cbn [snd sizeof];
    rewrite ?length_enc_u32, ?length_enc_i32, ?length_enc_u64,
      ?length_enc_double, ?Hname; reflexivity.
Qed.

Lemma v1_of_v1_bytes r : wf_v1 MAX_PATH r -> v1_of_bytes (v1_bytes r) = Some r.
Proof.
  unfold wf_v1. intros H. destruct r. cbn in *. f_equal.
  repeat match goal with H : _ /\ _ |- _ => destruct H end.
  rewrite ?dec_enc_u32, ?dec_enc_u64, ?dec_enc_i32, ?dec_enc_double by assumption.
  reflexivity.
Qed.

Lemma v2_of_v2_bytes r : wf_v2 r -> v2_of_bytes (v2_bytes r) = Some r.
Proof.
  unfold wf_v2. intros H. destruct r. cbn in *. f_equal.
  repeat match goal with H : _ /\ _ |- _ => destruct H end.
  rewrite ?dec_enc_u64, ?dec_enc_double by assumption.
  reflexivity.
Qed.

Lemma frame_of_frame_bytes r :
  wf_frame MAX_PATH r -> frame_of_bytes (frame_bytes r) = Some r.
Proof.
  intros [H1 H2]. unfold frame_of_bytes, frame_bytes.
  change (take 20 (v1_bytes (data1 r) ++ v2_bytes (data2 r)))
    with (v1_bytes (data1 r)).
  change (drop 20 (v1_bytes (data1 r) ++ v2_bytes (data2 r)))
    with (v2_bytes (data2 r)).
  rewrite v1_of_v1_bytes, v2_of_v2_bytes by assumption.
  destruct r; reflexivity.
Qed.

Lemma read_write_frame base r (m : list byte) :
  wf_frame MAX_PATH r -> 0 <= base ->
  base + sizeof (PMDP_FRAME_DATA MAX_PATH) <= Z.of_nat (length m) ->
  read_frame MAX_PATH base (write_frame MAX_PATH base r m) = Some r.
Proof.
  intros Hwf Hbase Hlen. unfold read_frame, write_frame.
  rewrite (load_store_leaves _ _ _ base
             (base + sizeof (PMDP_FRAME_DATA MAX_PATH))).
  - apply frame_of_frame_bytes, Hwf.
  - apply leaves_chained.
  - exact Hbase.
  - exact Hlen.
  - apply frame_bytes_fits, Hwf.
Qed.

Lemma length_write_frame base r (m : list byte) :
  wf_frame MAX_PATH r -> 0 <= base ->
  base + sizeof (PMDP_FRAME_DATA MAX_PATH) <= Z.of_nat (length m) ->
  length (write_frame MAX_PATH base r m) = length m.
Proof.
  intros Hwf Hbase Hlen. unfold write_frame.
  apply (length_store_leaves _ _ _ base
           (base + sizeof (PMDP_FRAME_DATA MAX_PATH))).
  - apply leaves_chained.
  - exact Hbase.
  - exact Hlen.
  - apply frame_bytes_fits, Hwf.
Qed.

End FrameProofs.

(** ** The layout of the declared structures *)

Lemma sizeof_struct ms :
  sizeof (struct ms) = align_up (members_end 0 ms) (members_align ms).
Proof. reflexivity. Qed.

Lemma members_end_cons off name t rest :
  members_end off (mcons name t rest) =
  members_end (align_up off (alignof t) + sizeof t) rest.
Proof. reflexivity. Qed.

Lemma members_end_nil off : members_end off mnil = off.
Proof. reflexivity. Qed.

Lemma sizeof_array elem n : sizeof (array elem n) = Z.of_nat n * sizeof elem.
Proof. reflexivity. Qed.

Section LayoutProofs.

Variable MAX_PATH : nat.

Lemma alignof_V1 : alignof (PM_FRAME_DATA_V1 MAX_PATH) = 8.
Proof. reflexivity. Qed.

Lemma alignof_FRAME : alignof (PMDP_FRAME_DATA MAX_PATH) = 8.
Proof. reflexivity. Qed.

Lemma sizeof_V1_aligned : (8 | sizeof (PM_FRAME_DATA_V1 MAX_PATH)).
Proof. rewrite <- alignof_V1. apply sizeof_aligned. Qed.

Lemma sizeof_FRAME_aligned : (8 | sizeof (PMDP_FRAME_DATA MAX_PATH)).
Proof. rewrite <- alignof_FRAME. apply sizeof_aligned. Qed.

Lemma sizeof_V2_104 : sizeof PM_FRAME_DATA_V2 = 104.
Proof. reflexivity. Qed.

Lemma fields_FRAME :
  fields (PMDP_FRAME_DATA MAX_PATH) =
  [ ("data1"%string, 0, PM_FRAME_DATA_V1 MAX_PATH);
    ("data2"%string, sizeof (PM_FRAME_DATA_V1 MAX_PATH), PM_FRAME_DATA_V2) ].
Proof.
  unfold PMDP_FRAME_DATA. cbn [fields members_of member_offsets].
  rewrite alignof_V1. change (alignof PM_FRAME_DATA_V2) with 8.
  change (align_up 0 8) with 0. rewrite Z.add_0_l.
  rewrite (align_up_fixed _ 8) by (try lia; apply sizeof_V1_aligned).
  reflexivity.
Qed.

Lemma sizeof_FRAME :
  sizeof (PMDP_FRAME_DATA MAX_PATH) = sizeof (PM_FRAME_DATA_V1 MAX_PATH) + 104.
Proof.
  unfold PMDP_FRAME_DATA at 1. cbn [members_of].
  rewrite sizeof_struct, !members_end_cons, members_end_nil.
  rewrite alignof_V1, sizeof_V2_104. change (alignof PM_FRAME_DATA_V2) with 8.
  change (members_align _) with 8.
  change (align_up 0 8) with 0. rewrite Z.add_0_l.
  rewrite (align_up_fixed (sizeof _) 8) by (try lia; apply sizeof_V1_aligned).
  apply align_up_fixed; [lia|].
  apply Z.divide_add_r; [apply sizeof_V1_aligned | exists 13; reflexivity].
Qed.

Lemma leaves_FRAME base :
  leaves base (PMDP_FRAME_DATA MAX_PATH) =
  leaves base (PM_FRAME_DATA_V1 MAX_PATH) ++
  leaves (base + sizeof (PM_FRAME_DATA_V1 MAX_PATH)) PM_FRAME_DATA_V2.
Proof.
  unfold PMDP_FRAME_DATA at 1. cbn [leaves members_of member_leaves].
  rewrite alignof_V1. change (alignof PM_FRAME_DATA_V2) with 8.
  change (align_up 0 8) with 0. rewrite Z.add_0_l, Z.add_0_r, app_nil_r.
  rewrite (align_up_fixed _ 8) by (try lia; apply sizeof_V1_aligned).
  reflexivity.
Qed.

Lemma fields_SHARED :
  fields (PMDP_SHARED_MEMORY MAX_PATH) =
  [ ("dwSignature"%string, 0, DWORD);
    ("dwVersion"%string, 4, DWORD);
    ("dwFrameArrEntrySize"%string, 8, DWORD);
    ("dwFrameArrOffset"%string, 12, DWORD);
    ("dwFrameArrSize"%string, 16, DWORD);
    ("dwFrameCount"%string, 20, DWORD);
    ("dwFramePos"%string, 24, DWORD);
    ("dwStatus"%string, 28, DWORD);
    ("arrFrame"%string, 32, array (PMDP_FRAME_DATA MAX_PATH) arrFrame_length) ].
Proof. reflexivity. Qed.

Lemma arrFrame_offset_32 : arrFrame_offset MAX_PATH = 32.
Proof. reflexivity. Qed.

Lemma sizeof_SHARED :
  sizeof (PMDP_SHARED_MEMORY MAX_PATH) =
  32 + 8192 * sizeof (PMDP_FRAME_DATA MAX_PATH).
Proof.
  unfold PMDP_SHARED_MEMORY. cbn [members_of].
  rewrite sizeof_struct, !members_end_cons, members_end_nil, sizeof_array.
  change (members_align _) with 8.
  change (alignof (array _ _)) with 8.
  change (Z.of_nat arrFrame_length) with 8192.
  change (sizeof DWORD) with 4. change (alignof DWORD) with 4.
  change (align_up 0 4) with 0. change (align_up (0 + 4) 4) with 4.
  change (align_up (4 + 4) 4) with 8. change (align_up (8 + 4) 4) with 12.
  change (align_up (12 + 4) 4) with 16. change (align_up (16 + 4) 4) with 20.
  change (align_up (20 + 4) 4) with 24. change (align_up (24 + 4) 4) with 28.
  change (align_up (28 + 4) 8) with 32.
  apply align_up_fixed; [lia|].
  apply Z.divide_add_r; [exists 4; reflexivity|].
  apply Z.divide_mul_r, sizeof_FRAME_aligned.
Qed.

End LayoutProofs.

(** ** C strings in the [Application] buffer *)

Lemma cstring_length buf : forall name,
  cstring buf = Some name -> (length name < length buf)%nat.
Proof.
  induction buf as [|b buf IH]; cbn [cstring]; intros name H; [discriminate|].
  destruct (Byte.eqb b Byte.x00).
  - inversion H; subst. cbn. lia.
  - destruct (cstring buf) as [s|]; [|discriminate].
    inversion H; subst. specialize (IH s eq_refl). cbn. lia.
Qed.

Lemma cstring_padded name n :
  Forall (fun b => b <> Byte.x00) name ->
  cstring (name ++ repeat Byte.x00 (S n)) = Some name.
Proof.
  induction 1 as [|b name Hb _ IH]; [reflexivity|].
  cbn [app cstring]. rewrite IH.
  destruct (Byte.eqb b Byte.x00) eqn:E; [|reflexivity].
  apply Byte.byte_dec_bl in E. contradiction.
Qed.

(** * The claims *)

(** C1. The version-1 layout of the shared region is, in declaration order,
    eight naturally aligned 32-bit fields (signature, version, entry size,
    entry-array offset, entry-array size, frame count, frame position,
    status) at offsets 0, 4, ..., 28, followed at offset 32 by the ring
    array of 8192 frame records of one fixed size; nothing else is part of
    the region. *)
Theorem shared_memory_layout (MAX_PATH : nat) :
  fields (PMDP_SHARED_MEMORY MAX_PATH) =
    [ ("dwSignature"%string, 0, DWORD);
      ("dwVersion"%string, 4, DWORD);
      ("dwFrameArrEntrySize"%string, 8, DWORD);
      ("dwFrameArrOffset"%string, 12, DWORD);
      ("dwFrameArrSize"%string, 16, DWORD);
      ("dwFrameCount"%string, 20, DWORD);
      ("dwFramePos"%string, 24, DWORD);
      ("dwStatus"%string, 28, DWORD);
      ("arrFrame"%string, 32, array (PMDP_FRAME_DATA MAX_PATH) arrFrame_length) ]
  /\ 8 * sizeof DWORD = 32
  /\ Forall (fun f => (alignof (snd f) | snd (fst f)))
       (fields (PMDP_SHARED_MEMORY MAX_PATH))
  /\ Z.of_nat arrFrame_length = 8192
  /\ sizeof (array (PMDP_FRAME_DATA MAX_PATH) arrFrame_length) =
       8192 * sizeof (PMDP_FRAME_DATA MAX_PATH)
  /\ (forall i, slot_offset MAX_PATH (i + 1) - slot_offset MAX_PATH i =
                sizeof (PMDP_FRAME_DATA MAX_PATH))
  /\ slot_offset MAX_PATH 0 = 32
  /\ sizeof (PMDP_SHARED_MEMORY MAX_PATH) =
       32 + 8192 * sizeof (PMDP_FRAME_DATA MAX_PATH).
Proof.
  split; [apply fields_SHARED|].
  split; [reflexivity|].
  split.
  { rewrite fields_SHARED.
    repeat apply List.Forall_cons; try apply List.Forall_nil; cbn [fst snd];
      try (change (alignof DWORD) with 4;
           solve [ exists 0; reflexivity | exists 1; reflexivity
                 | exists 2; reflexivity | exists 3; reflexivity
                 | exists 4; reflexivity | exists 5; reflexivity
                 | exists 6; reflexivity | exists 7; reflexivity ]). }
  split; [reflexivity|].
  split; [apply sizeof_array|].
  split.
  { intros i. unfold slot_offset. lia. }
  split.
  { unfold slot_offset. rewrite arrFrame_offset_32. lia. }
  apply sizeof_SHARED.
Qed.

(** C2. A frame record whose fields hold values of their C types, written
    into a slot of a memory and read back through the offsets of the
    layout, is read back unchanged.  The fields of the base record lie in
    declaration order from the start of the slot, those of the extended
    record follow in declaration order right after the base record, with no
    padding between the two, and every field is naturally aligned when the
    slot is, as every slot of the ring array is. *)
Theorem frame_roundtrip (MAX_PATH : nat) (base : Z) (r : pmdp_frame_data)
    (m : list byte) :
  wf_frame MAX_PATH r ->
  0 <= base ->
  base + sizeof (PMDP_FRAME_DATA MAX_PATH) <= Z.of_nat (length m) ->
  read_frame MAX_PATH base (write_frame MAX_PATH base r m) = Some r
  /\ length (write_frame MAX_PATH base r m) = length m
  /\ map (fun f => fst (fst f)) (fields (PM_FRAME_DATA_V1 MAX_PATH)) =
       [ "Application"; "ProcessID"; "SwapChainAddress"; "Runtime";
         "SyncInterval"; "PresentFlags"; "Dropped"; "TimeInSeconds";
         "msInPresentAPI"; "msBetweenPresents"; "AllowsTearing";
         "PresentMode"; "msUntilRenderComplete"; "msUntilDisplayed";
         "msBetweenDisplayChange"; "msUntilRenderStart"; "qpcTime";
         "msSinceInput"; "msGpuActive"; "msGpuVideoActive" ]%string
  /\ map (fun f => fst (fst f)) (fields PM_FRAME_DATA_V2) =
       [ "CPUStart"; "Frametime"; "CPUBusy"; "CPUWait"; "GPULatency";
         "GPUTime"; "GPUBusy"; "VideoBusy"; "GPUWait"; "DisplayLatency";
         "DisplayedTime"; "AnimationError"; "ClickToPhotonLatency" ]%string
  /\ fields (PMDP_FRAME_DATA MAX_PATH) =
       [ ("data1"%string, 0, PM_FRAME_DATA_V1 MAX_PATH);
         ("data2"%string, sizeof (PM_FRAME_DATA_V1 MAX_PATH), PM_FRAME_DATA_V2) ]
  /\ leaves base (PMDP_FRAME_DATA MAX_PATH) =
       leaves base (PM_FRAME_DATA_V1 MAX_PATH) ++
       leaves (base + sizeof (PM_FRAME_DATA_V1 MAX_PATH)) PM_FRAME_DATA_V2
  /\ chained base (leaves base (PMDP_FRAME_DATA MAX_PATH))
       (base + sizeof (PMDP_FRAME_DATA MAX_PATH))
  /\ ((8 | base) -> aligned_leaves (leaves base (PMDP_FRAME_DATA MAX_PATH)))
  /\ (forall i, 0 <= i < 8192 ->
        0 <= slot_offset MAX_PATH i
        /\ slot_offset MAX_PATH i + sizeof (PMDP_FRAME_DATA MAX_PATH) <=
             sizeof (PMDP_SHARED_MEMORY MAX_PATH)
        /\ (8 | slot_offset MAX_PATH i)).
Proof.
  intros Hwf Hbase Hlen.
  split; [apply read_write_frame; assumption|].
  split; [apply length_write_frame; assumption|].
  split; [reflexivity|].
  split; [reflexivity|].
  split; [apply fields_FRAME|].
  split; [apply leaves_FRAME|].
  split; [apply leaves_chained|].
  split.
  { intros Hal. apply leaves_aligned. rewrite alignof_FRAME. exact Hal. }
  intros i Hi. unfold slot_offset. rewrite arrFrame_offset_32, sizeof_SHARED.
  pose proof (sizeof_nonneg (PMDP_FRAME_DATA MAX_PATH)) as Hsz.
  split; [nia|]. split; [nia|].
  apply Z.divide_add_r; [exists 4; reflexivity|].
  apply Z.divide_mul_r, sizeof_FRAME_aligned.
Qed.

Lemma sample_frame_wf : wf_frame MAX_PATH_windows sample_frame.
Proof.
  split; [unfold wf_v1 | unfold wf_v2]; cbn;
    unfold is_u32, is_i32, is_u64; repeat split; try lia.
Defined.

Lemma frame_roundtrip_witness :
  read_frame MAX_PATH_windows 520
    (write_frame MAX_PATH_windows 520 sample_frame sample_memory)
  = Some sample_frame.
Proof.
  refine (proj1 (frame_roundtrip MAX_PATH_windows 520 sample_frame
                   sample_memory sample_frame_wf _ _)).
  - lia.
  - vm_compute. intros H; discriminate H.
Defined.

(** C10. The base record of every frame begins with the application name as
    an inline buffer of [MAX_PATH] characters: the buffer is the first leaf
    of a slot and [MAX_PATH] bytes wide, consecutive slots are one
    record size apart whatever the records hold, writing a record leaves the
    size of the memory as it was, and a name read from the buffer as a C
    string has at most [MAX_PATH - 1] characters, every NUL-free name of that
    length being the content of some buffer. *)
Theorem application_buffer_fixed (MAX_PATH : nat) :
  (forall base, head (leaves base (PMDP_FRAME_DATA MAX_PATH)) =
                Some (base, char_array MAX_PATH))
  /\ offsetof (PM_FRAME_DATA_V1 MAX_PATH) "Application" = Some 0
  /\ sizeof (char_array MAX_PATH) = Z.of_nat MAX_PATH
  /\ (forall i, slot_offset MAX_PATH (i + 1) =
                slot_offset MAX_PATH i + sizeof (PMDP_FRAME_DATA MAX_PATH))
  /\ (forall r r' base (m : list byte),
        wf_frame MAX_PATH r -> wf_frame MAX_PATH r' -> 0 <= base ->
        base + sizeof (PMDP_FRAME_DATA MAX_PATH) <= Z.of_nat (length m) ->
        length (write_frame MAX_PATH base r m) =
        length (write_frame MAX_PATH base r' m))
  /\ (forall r name,
        wf_frame MAX_PATH r ->
        cstring (Application (data1 r)) = Some name ->
        (length name <= MAX_PATH - 1)%nat)
  /\ (forall name,
        Forall (fun b => b <> Byte.x00) name ->
        (length name <= MAX_PATH - 1)%nat -> (0 < MAX_PATH)%nat ->
        exists r, wf_frame MAX_PATH r /\
                  cstring (Application (data1 r)) = Some name).
Proof.
  split.
  { intros base. rewrite leaves_FRAME. unfold PM_FRAME_DATA_V1.
    cbn [members_of leaves member_leaves app head].
    change (align_up 0 (alignof (char_array MAX_PATH))) with 0.
    rewrite Z.add_0_r. reflexivity. }
  split; [reflexivity|].
  split; [reflexivity|].
  split.
  { intros i. unfold slot_offset. lia. }
  split.
  { intros r r' base m Hr Hr' Hb Hlen.
    rewrite !length_write_frame by assumption. reflexivity. }
  split.
  { intros r name [[Hlen _] _] Hname.
    apply cstring_length in Hname. lia. }
  intros name Hnz Hlen Hpos.
  exists {| data1 :=
              {| Application := name ++ repeat Byte.x00 (MAX_PATH - length name);
                 ProcessID := 0; SwapChainAddress := 0; Runtime := 0;
                 SyncInterval := 0; PresentFlags := 0; Dropped := 0;
                 TimeInSeconds := 0; msInPresentAPI := 0;
                 msBetweenPresents := 0; AllowsTearing := 0; PresentMode := 0;
                 msUntilRenderComplete := 0; msUntilDisplayed := 0;
                 msBetweenDisplayChange := 0; msUntilRenderStart := 0;
                 qpcTime := 0; msSinceInput := 0; msGpuActive := 0;
                 msGpuVideoActive := 0 |};
            data2 := zero_v2 |}.
  split.
  - split; [unfold wf_v1 | unfold wf_v2]; cbn;
      unfold is_u32, is_i32, is_u64; repeat split; try lia.
    rewrite length_app, repeat_length. lia.
  - cbn [data1 Application].
    replace (MAX_PATH - length name)%nat
      with (S (MAX_PATH - length name - 1)) by lia.
    apply cstring_padded, Hnz.
Qed.

Lemma application_buffer_fixed_witness :
  (length (list_byte_of_string "game.exe") <= MAX_PATH_windows - 1)%nat.
Proof.
  destruct (application_buffer_fixed MAX_PATH_windows)
    as (_ & _ & _ & _ & _ & Hname & _).
  apply (Hname sample_frame (list_byte_of_string "game.exe") sample_frame_wf).
  vm_compute. reflexivity.
Defined.

(** ** The signature, the version and the status *)

Lemma SIGNATURE_PMDP_value : SIGNATURE_PMDP = 0x504D4450.
Proof. reflexivity. Qed.

Lemma signature_state_valid sig :
  signature_state_of sig = SigValid <-> sig = SIGNATURE_PMDP.
Proof.
  unfold signature_state_of.
  destruct (Z.eqb_spec sig SIGNATURE_PMDP) as [->|Hne].
  - split; reflexivity.
  - destruct (Z.eqb_spec sig SIGNATURE_DEAD); split; intros H;
      try discriminate H; contradiction.
Qed.

Lemma signature_state_dead sig :
  signature_state_of sig = SigDead <-> sig = SIGNATURE_DEAD.
Proof.
  unfold signature_state_of.
  destruct (Z.eqb_spec sig SIGNATURE_PMDP) as [->|Hne].
  - split; intros H; discriminate H.
  - destruct (Z.eqb_spec sig SIGNATURE_DEAD) as [->|Hne']; split; intros H;
      try reflexivity; try discriminate H; contradiction.
Qed.

Lemma signature_state_not_initialized sig :
  signature_state_of sig = SigNotInitialized <->
  sig <> SIGNATURE_PMDP /\ sig <> SIGNATURE_DEAD.
Proof.
  unfold signature_state_of.
  destruct (Z.eqb_spec sig SIGNATURE_PMDP) as [->|Hne].
  - split; [intros H; discriminate H | intros [H _]; contradiction].
  - destruct (Z.eqb_spec sig SIGNATURE_DEAD) as [->|Hne'].
    + split; [intros H; discriminate H | intros [_ H]; contradiction].
    + split; [intros _; split; assumption | reflexivity].
Qed.

Lemma validate_dead M s :
  dwSignature s = SIGNATURE_DEAD -> validate M s = IncompatibleSignature TornDown.
Proof. unfold validate. intros ->. reflexivity. Qed.

Lemma validate_valid M s :
  dwSignature s = SIGNATURE_PMDP ->
  validate M s =
  if version_major (dwVersion s) =? M then OK else IncompatibleMajorVersion.
Proof. unfold validate. intros ->. reflexivity. Qed.

Lemma version_major_make major minor :
  0 <= minor < 2 ^ 16 -> version_major (make_version major minor) = major.
Proof.
  intros H. unfold version_major, make_version.
  rewrite Z.shiftl_mul_pow2, Z.shiftr_div_pow2 by lia.
  rewrite Z.add_comm, Z.div_add by lia. rewrite Z.div_small by lia. lia.
Qed.

Lemma version_minor_make major minor :
  0 <= minor < 2 ^ 16 -> version_minor (make_version major minor) = minor.
Proof.
  intros H. unfold version_minor, make_version.
  change 0xFFFF with (Z.ones 16). rewrite Z.land_ones by lia.
  rewrite Z.shiftl_mul_pow2 by lia.
  rewrite Z.add_comm, Z.mod_add by lia. apply Z.mod_small. lia.
Qed.

(** C3. The signature has three readings and no other: ['PMDP']
    (0x504D4450) says the region is initialized and holds valid data,
    [0xDEAD] says it is torn down, and every other value says it is not
    initialized.  A reader accepts a region only under the valid signature,
    and under any other signature its answer does not depend on what the
    other fields hold. *)
Theorem signature_classes :
  SIGNATURE_PMDP = 0x504D4450 /\ SIGNATURE_DEAD = 0xDEAD
  /\ is_u32 SIGNATURE_PMDP /\ is_u32 SIGNATURE_DEAD
  /\ (forall sig,
        (signature_state_of sig = SigValid <-> sig = SIGNATURE_PMDP)
        /\ (signature_state_of sig = SigDead <-> sig = SIGNATURE_DEAD)
        /\ (signature_state_of sig = SigNotInitialized <->
            sig <> SIGNATURE_PMDP /\ sig <> SIGNATURE_DEAD))
  /\ (forall M s, validate M s = OK -> dwSignature s = SIGNATURE_PMDP)
  /\ (forall M s s',
        dwSignature s <> SIGNATURE_PMDP -> dwSignature s' = dwSignature s ->
        validate M s' = validate M s).
Proof.
  split; [reflexivity|]. split; [reflexivity|].
  split; [unfold is_u32; rewrite SIGNATURE_PMDP_value; lia|].
  split; [unfold is_u32, SIGNATURE_DEAD; lia|].
  split.
  { intros sig. split; [apply signature_state_valid|].
    split; [apply signature_state_dead | apply signature_state_not_initialized]. }
  split.
  { intros M s H. apply signature_state_valid. unfold validate in H.
    destruct (signature_state_of (dwSignature s)); [reflexivity | |];
      discriminate H. }
  intros M s s' Hne Heq. unfold validate. rewrite Heq.
  destruct (signature_state_of (dwSignature s)) eqn:E; try reflexivity.
  apply signature_state_valid in E. contradiction.
Qed.

Lemma signature_classes_witness :
  validate 1 sample_dead_v2 = validate 1 (teardown sample_region).
Proof.
  destruct signature_classes as (_ & _ & _ & _ & _ & _ & H).
  apply H.
  - vm_compute. intros E; discriminate E.
  - reflexivity.
Defined.

(** C4 (as the code and the design have it).  The version is
    [(major<<16) + minor] with a major and a minor part of 16 bits, and
    [0x0001xxxx] is major version 1.  For every region whose signature is
    the valid magic, a reader built against major version [M] answers
    [IncompatibleMajorVersion] when the major version of the header differs
    from [M] and [OK] when it is [M], whatever the minor version is: only
    the major part of the version is looked at.  A region whose signature
    is not the valid magic is never answered [IncompatibleMajorVersion]: it
    is rejected on its signature, [TornDown] under the teardown magic and
    [NotReady] under any other value, whatever its version is. *)
Theorem version_gate (M : Z) (s : pmdp_shared_memory) :
  (dwSignature s = SIGNATURE_PMDP ->
     (version_major (dwVersion s) <> M -> validate M s = IncompatibleMajorVersion)
     /\ (version_major (dwVersion s) = M -> validate M s = OK))
  /\ (validate M s = IncompatibleMajorVersion <->
      dwSignature s = SIGNATURE_PMDP /\ version_major (dwVersion s) <> M)
  /\ (dwSignature s = SIGNATURE_DEAD ->
      validate M s = IncompatibleSignature TornDown)
  /\ (dwSignature s <> SIGNATURE_PMDP -> dwSignature s <> SIGNATURE_DEAD ->
      validate M s = IncompatibleSignature NotReady)
  /\ (forall s',
        dwSignature s = SIGNATURE_PMDP -> dwSignature s' = SIGNATURE_PMDP ->
        version_major (dwVersion s') = version_major (dwVersion s) ->
        validate M s' = validate M s)
  /\ (forall minor, 0 <= M < 2 ^ 16 -> 0 <= minor < 2 ^ 16 ->
        is_u32 (make_version M minor)
        /\ version_major (make_version M minor) = M
        /\ version_minor (make_version M minor) = minor
        /\ (dwSignature s = SIGNATURE_PMDP ->
            validate M (set_dwVersion (make_version M minor) s) = OK))
  /\ (forall minor, 0 <= minor < 2 ^ 16 ->
        0x00010000 <= make_version 1 minor <= 0x0001FFFF).
Proof.
  split; [|split; [|split; [|split; [|split; [|split]]]]].
  - intros Hsig. rewrite validate_valid by assumption.
    destruct (Z.eqb_spec (version_major (dwVersion s)) M) as [E|E]; split;
      intros H; try reflexivity; contradiction.
  - unfold validate. split.
    + destruct (signature_state_of (dwSignature s)) eqn:Es;
        try (intros H; discriminate H).
      apply signature_state_valid in Es.
      destruct (Z.eqb_spec (version_major (dwVersion s)) M) as [E|E];
        intros H; [discriminate H | split; assumption].
    + intros [Hsig Hne]. rewrite Hsig.
      replace (signature_state_of SIGNATURE_PMDP) with SigValid
        by (symmetry; apply signature_state_valid; reflexivity).
      destruct (Z.eqb_spec (version_major (dwVersion s)) M);
        [contradiction | reflexivity].
  - apply validate_dead.
  - intros Hv Hd. unfold validate.
    replace (signature_state_of (dwSignature s)) with SigNotInitialized
      by (symmetry; apply signature_state_not_initialized; split; assumption).
    reflexivity.
  - intros s' Hsig Hsig' Hmaj.
    rewrite !validate_valid by assumption. rewrite Hmaj. reflexivity.
  - intros minor HM Hminor.
    assert (Hu : is_u32 (make_version M minor)).
    { unfold is_u32, make_version. rewrite Z.shiftl_mul_pow2 by lia.
      change (2 ^ 16) with 65536 in *. lia. }
    split; [exact Hu|].
    split; [apply version_major_make, Hminor|].
    split; [apply version_minor_make, Hminor|].
    intros Hsig. rewrite validate_valid by exact Hsig.
    cbn [dwVersion set_dwVersion]. unfold is_u32 in Hu.
    rewrite Z.mod_small by exact Hu.
    rewrite version_major_make by exact Hminor. rewrite Z.eqb_refl. reflexivity.
  - intros minor Hminor. unfold make_version.
    change (Z.shiftl 1 16) with 65536. lia.
Qed.

Lemma version_gate_witness :
  validate 1 (set_dwVersion (make_version 2 7) sample_region)
  = IncompatibleMajorVersion.
Proof.
  refine (proj1 (proj1 (version_gate 1
            (set_dwVersion (make_version 2 7) sample_region)) _) _).
  - reflexivity.
  - vm_compute. intros E; discriminate E.
Defined.

(** The claim C4 as it is worded, for every header: a torn-down header of
    major version 2 is not answered with [IncompatibleMajorVersion] by a
    reader of major version 1. *)
Lemma version_gate_every_header_counterexample :
  version_major (dwVersion sample_dead_v2) <> 1
  /\ validate 1 sample_dead_v2 <> IncompatibleMajorVersion.
Proof. split; vm_compute; intros E; discriminate E. Qed.

(** C5. The status codes are OK = 0, INIT_FAILED = 1, START_FAILED = 2 and
    READ_FAILED = 3, four different values and no other; whether a region
    is not yet initialized or torn down is read from the signature and never
    from the status. *)
Theorem status_codes :
  status_code STATUS_OK = 0
  /\ status_code STATUS_INIT_FAILED = 1
  /\ status_code STATUS_START_STREAM_FAILED = 2
  /\ status_code STATUS_GET_FRAME_DATA_FAILED = 3
  /\ (forall a b, status_code a = status_code b -> a = b)
  /\ (forall c st, status_of_code c = Some st <-> c = status_code st)
  /\ (forall c, status_of_code c = None <-> ~ (0 <= c <= 3))
  /\ (forall s, lifecycle_of s = Uninitialized <->
                signature_state_of (dwSignature s) = SigNotInitialized)
  /\ (forall s, lifecycle_of s = Dead <-> dwSignature s = SIGNATURE_DEAD)
  /\ (forall s c, lifecycle_of (set_dwStatus c s) = Uninitialized <->
                  lifecycle_of s = Uninitialized)
  /\ (forall s c, lifecycle_of (set_dwStatus c s) = Dead <->
                  lifecycle_of s = Dead)
  /\ (forall s, dwSignature s = SIGNATURE_PMDP ->
                lifecycle_of s = Valid (status_of_code (dwStatus s))).
Proof.
  repeat match goal with |- _ /\ _ => split end; try reflexivity.
  - intros [] []; cbn; intros H; try reflexivity; discriminate H.
  - intros c st. unfold status_of_code.
    repeat match goal with
           | |- context [Z.eqb c ?k] => destruct (Z.eqb_spec c k) as [->|?]
           end;
      destruct st; cbn; split; intros H; try reflexivity; try discriminate H;
      unfold PMDP_STATUS_OK, PMDP_STATUS_INIT_FAILED,
        PMDP_STATUS_START_STREAM_FAILED, PMDP_STATUS_GET_FRAME_DATA_FAILED in *;
      lia.
  - intros c. unfold status_of_code.
    repeat match goal with
           | |- context [Z.eqb c ?k] => destruct (Z.eqb_spec c k) as [->|?]
           end;
      unfold PMDP_STATUS_OK, PMDP_STATUS_INIT_FAILED,
        PMDP_STATUS_START_STREAM_FAILED, PMDP_STATUS_GET_FRAME_DATA_FAILED in *;
      split; intros H; try reflexivity; try discriminate H; lia.
  - intros s. unfold lifecycle_of.
    destruct (signature_state_of (dwSignature s)); split; intros H;
      try reflexivity; discriminate H.
  - intros s. rewrite <- signature_state_dead. unfold lifecycle_of.
    destruct (signature_state_of (dwSignature s)); split; intros H;
      try reflexivity; discriminate H.
  - intros s c. unfold lifecycle_of. cbn [dwSignature set_dwStatus].
    destruct (signature_state_of (dwSignature s)); split; intros H;
      try reflexivity; discriminate H.
  - intros s c. unfold lifecycle_of. cbn [dwSignature set_dwStatus].
    destruct (signature_state_of (dwSignature s)); split; intros H;
      try reflexivity; discriminate H.
  - intros s H. unfold lifecycle_of. rewrite H. reflexivity.
Qed.

Lemma status_codes_witness :
  lifecycle_of sample_region = Valid (Some STATUS_OK).
Proof.
  destruct status_codes as (_ & _ & _ & _ & _ & _ & _ & _ & _ & _ & _ & H).
  rewrite (H sample_region); reflexivity.
Defined.

(** C9. After [teardown], whose one write puts the teardown magic into the
    signature and leaves the rest of the header as it was, [validate]
    answers [TornDown] and never [OK], for every reader and whatever the
    other fields of the header hold; the same holds for every region that
    carries the teardown magic. *)
Theorem teardown_validate (M : Z) (s : pmdp_shared_memory) :
  validate M (teardown s) = IncompatibleSignature TornDown
  /\ validate M (teardown s) <> OK
  /\ dwSignature (teardown s) = SIGNATURE_DEAD
  /\ dwVersion (teardown s) = dwVersion s
  /\ dwFrameArrEntrySize (teardown s) = dwFrameArrEntrySize s
  /\ dwFrameArrOffset (teardown s) = dwFrameArrOffset s
  /\ dwFrameArrSize (teardown s) = dwFrameArrSize s
  /\ dwFrameCount (teardown s) = dwFrameCount s
  /\ dwFramePos (teardown s) = dwFramePos s
  /\ dwStatus (teardown s) = dwStatus s
  /\ arrFrame (teardown s) = arrFrame s
  /\ (forall s', dwSignature s' = SIGNATURE_DEAD ->
        validate M s' = IncompatibleSignature TornDown /\ validate M s' <> OK).
Proof.
  assert (H : forall s', dwSignature s' = SIGNATURE_DEAD ->
            validate M s' = IncompatibleSignature TornDown /\ validate M s' <> OK).
  { intros s' Hs'. rewrite (validate_dead M s' Hs').
    split; [reflexivity | intros E; discriminate E]. }
  destruct (H (teardown s) eq_refl) as [H1 H2].
  repeat match goal with |- _ /\ _ => split end; try reflexivity; assumption.
Qed.

Lemma teardown_validate_witness :
  validate 1 sample_dead_v2 = IncompatibleSignature TornDown.
Proof.
  destruct (teardown_validate 1 sample_region) as (_ & _ & _ & _ & _ & _ & _ & _ & _ & _ & _ & H).
  apply (H sample_dead_v2). reflexivity.
Defined.

(** ** The producer's counters *)

Example five_appends_in_four_slots :
  let s := appendFrames [sample_frame; zero_frame MAX_PATH_windows;
                         sample_frame; sample_frame; sample_frame]
             sample_region in
  (totalFrameCount s, writeCursor s, capacity s) = (5, 1, 4)
  /\ arrFrame s !! 0%nat = Some sample_frame
  /\ arrFrame s !! 1%nat = Some (zero_frame MAX_PATH_windows).
Proof. vm_compute. repeat split. Qed.

Example validate_samples :
  validate 1 sample_region = OK
  /\ validate 2 sample_region = IncompatibleMajorVersion
  /\ validate 1 (initialize_unpublished MAX_PATH_windows 4 488)
     = IncompatibleSignature NotReady
  /\ validate 1 (teardown sample_region) = IncompatibleSignature TornDown.
Proof. repeat split. Qed.







Section ProducerProofs.

Variable MAX_PATH : nat.



Lemma sizeof_FRAME_pos : 0 < sizeof (PMDP_FRAME_DATA MAX_PATH).
Proof.
  rewrite sizeof_FRAME. pose proof (sizeof_nonneg (PM_FRAME_DATA_V1 MAX_PATH)). lia.
Qed.

End ProducerProofs.





(** * Further properties of the declared layout *)

(** ** Memory outside a write *)

Lemma read_write_after o n off bs (m : list byte) :
  0 <= off -> off + Z.of_nat (length bs) <= o ->
  off + Z.of_nat (length bs) <= Z.of_nat (length m) ->
  read_bytes o n (write_bytes off bs m) = read_bytes o n m.
Proof.
  intros Hoff Hle Hlen. unfold read_bytes, write_bytes.
  rewrite app_assoc.
  rewrite drop_app_ge by (rewrite length_app, length_take; lia).
  rewrite drop_drop. f_equal. f_equal.
  rewrite length_app, length_take. lia.
Qed.

Lemma read_write_apart o n off bs (m : list byte) :
  0 <= off -> 0 <= o -> 0 <= n ->
  off + Z.of_nat (length bs) <= Z.of_nat (length m) ->
  apart o (o + n) off (off + Z.of_nat (length bs)) ->
  read_bytes o n (write_bytes off bs m) = read_bytes o n m.
Proof.
  intros Hoff Ho Hn Hlen [H|H].
  - apply read_write_before; lia.
  - apply read_write_after; lia.
Qed.

Lemma chained_range lo ls hi l :
  chained lo ls hi -> In l ls -> lo <= fst l /\ fst l + sizeof (snd l) <= hi.
Proof.
  revert lo. induction ls as [|[o t] ls IH]; cbn [chained In]; intros lo Hc Hin.
  - contradiction.
  - destruct Hc as [Ha Hb]. destruct Hin as [<-|Hin].
    + cbn [fst snd]. split; [exact Ha|]. apply (chained_le _ _ _ Hb).
    + destruct (IH _ Hb Hin) as [H1 H2]. pose proof (sizeof_nonneg t).
      cbn [fst snd] in *. lia.
Qed.

Lemma store_leaves_apart ls : forall vs (m : list byte) lo hi o n,
  chained lo ls hi -> 0 <= lo -> hi <= Z.of_nat (length m) -> fits ls vs ->
  0 <= o -> 0 <= n -> apart o (o + n) lo hi ->
  read_bytes o n (store_leaves ls vs m) = read_bytes o n m.
Proof.
  induction ls as [|[o' t] ls IH]; intros vs m lo hi o n Hc Hlo Hhi Hf Ho Hn Hap.
  - reflexivity.
  - inversion Hf as [|? v ? vs' Hv Hf']; subst. cbn [fst snd] in Hv.
    cbn [store_leaves]. cbn [chained fst snd] in Hc.
    destruct Hc as [Ha Hb]. pose proof (chained_le _ _ _ Hb) as Hle'.
    pose proof (sizeof_nonneg t) as Hs.
    assert (Hw : length (write_bytes o' v m) = length m)
      by (apply length_write_bytes; lia).
    rewrite (IH vs' _ (o' + sizeof t) hi); auto; try lia.
    + apply read_write_apart; try lia. unfold apart in *. lia.
    + unfold apart in *. lia.
Qed.

Lemma load_leaves_store_apart ls ls' : forall vs (m : list byte) lo hi lo' hi',
  chained lo ls hi -> 0 <= lo -> hi <= Z.of_nat (length m) -> fits ls vs ->
  chained lo' ls' hi' -> 0 <= lo' -> apart lo' hi' lo hi ->
  load_leaves ls' (store_leaves ls vs m) = load_leaves ls' m.
Proof.
  intros vs m lo hi lo' hi' Hc Hlo Hhi Hf Hc' Hlo' Hap.
  unfold load_leaves. apply map_ext_in. intros l Hin.
  destruct (chained_range _ _ _ _ Hc' Hin) as [H1 H2].
  pose proof (sizeof_nonneg (snd l)).
  apply (store_leaves_apart ls vs m lo hi); auto; try lia.
  unfold apart in *. lia.
Qed.

(** ** The slots of the ring array *)

Section SlotProofs.

Variable MAX_PATH : nat.

Lemma slot_offset_eq i :
  slot_offset MAX_PATH i = 32 + i * sizeof (PMDP_FRAME_DATA MAX_PATH).
Proof. unfold slot_offset. rewrite arrFrame_offset_32. reflexivity. Qed.

Lemma slots_in_order i j :
  0 <= i < j ->
  slot_offset MAX_PATH i + sizeof (PMDP_FRAME_DATA MAX_PATH)
  <= slot_offset MAX_PATH j.
Proof.
  intros H. rewrite !slot_offset_eq.
  pose proof (sizeof_FRAME_pos MAX_PATH). nia.
Qed.

Lemma slots_apart i j :
  0 <= i -> 0 <= j -> i <> j ->
  apart (slot_offset MAX_PATH j)
        (slot_offset MAX_PATH j + sizeof (PMDP_FRAME_DATA MAX_PATH))
        (slot_offset MAX_PATH i)
        (slot_offset MAX_PATH i + sizeof (PMDP_FRAME_DATA MAX_PATH)).
Proof.
  intros Hi Hj Hne. unfold apart.
  destruct (Z.lt_total i j) as [H|[H|H]]; [right | contradiction | left];
    apply slots_in_order; lia.
Qed.

Lemma slot_offset_ge i : 0 <= i -> 32 <= slot_offset MAX_PATH i.
Proof.
  intros H. rewrite slot_offset_eq.
  pose proof (sizeof_FRAME_pos MAX_PATH). nia.
Qed.

End SlotProofs.

(** X1. The slots of the ring array lie behind the 32 bytes of the header,
    one after the other without overlap, and the index of a slot is found
    again from its offset by dividing by the size of an entry. *)
Theorem slots_disjoint (MAX_PATH : nat) (i j : Z) :
  0 <= i < j ->
  32 <= slot_offset MAX_PATH i
  /\ slot_offset MAX_PATH i + sizeof (PMDP_FRAME_DATA MAX_PATH)
     <= slot_offset MAX_PATH j
  /\ (slot_offset MAX_PATH i - arrFrame_offset MAX_PATH)
       / sizeof (PMDP_FRAME_DATA MAX_PATH) = i
  /\ (slot_offset MAX_PATH i - arrFrame_offset MAX_PATH)
       mod sizeof (PMDP_FRAME_DATA MAX_PATH) = 0.
Proof.
  intros H. pose proof (sizeof_FRAME_pos MAX_PATH) as Hpos.
  split; [apply slot_offset_ge; lia|].
  split; [apply slots_in_order; exact H|].
  unfold slot_offset.
  replace (arrFrame_offset MAX_PATH + i * sizeof (PMDP_FRAME_DATA MAX_PATH)
           - arrFrame_offset MAX_PATH)
    with (i * sizeof (PMDP_FRAME_DATA MAX_PATH)) by lia.
  split; [apply Z.div_mul; lia | apply Z.mod_mul; lia].
Qed.

Lemma slots_disjoint_witness :
  slot_offset MAX_PATH_windows 0 + sizeof (PMDP_FRAME_DATA MAX_PATH_windows)
  <= slot_offset MAX_PATH_windows 1.
Proof.
  refine (proj1 (proj2 (slots_disjoint MAX_PATH_windows 0 1 _))). lia.
Defined.

(** X2. Writing a frame into one slot of the ring array leaves the frame
    read from every other slot as it was. *)
Theorem write_frame_other_slot (MAX_PATH : nat) (i j : Z)
    (r : pmdp_frame_data) (m : list byte) :
  wf_frame MAX_PATH r ->
  0 <= i -> 0 <= j -> i <> j ->
  slot_offset MAX_PATH i + sizeof (PMDP_FRAME_DATA MAX_PATH)
    <= Z.of_nat (length m) ->
  read_frame MAX_PATH (slot_offset MAX_PATH j)
    (write_frame MAX_PATH (slot_offset MAX_PATH i) r m)
  = read_frame MAX_PATH (slot_offset MAX_PATH j) m.
Proof.
  intros Hwf Hi Hj Hne Hlen. unfold read_frame, write_frame. f_equal.
  pose proof (slot_offset_ge MAX_PATH i Hi).
  pose proof (slot_offset_ge MAX_PATH j Hj).
  eapply load_leaves_store_apart.
  - apply leaves_chained.
  - lia.
  - exact Hlen.
  - apply frame_bytes_fits, Hwf.
  - apply leaves_chained.
  - lia.
  - apply slots_apart; assumption.
Qed.

Lemma write_frame_other_slot_witness :
  read_frame MAX_PATH_windows (slot_offset MAX_PATH_windows 0)
    (write_frame MAX_PATH_windows (slot_offset MAX_PATH_windows 1)
       sample_frame
       (write_frame MAX_PATH_windows (slot_offset MAX_PATH_windows 0)
          (zero_frame MAX_PATH_windows) sample_memory))
  = read_frame MAX_PATH_windows (slot_offset MAX_PATH_windows 0)
      (write_frame MAX_PATH_windows (slot_offset MAX_PATH_windows 0)
         (zero_frame MAX_PATH_windows) sample_memory).
Proof.
  apply (write_frame_other_slot MAX_PATH_windows 1 0 sample_frame).
  - exact sample_frame_wf.
  - lia.
  - lia.
  - lia.
  - vm_compute. intros E; discriminate E.
Defined.

(** ** The header fields in memory *)

Section HeaderProofs.

Variable MAX_PATH : nat.

Lemma field_of_header_name name :
  In name header_field_names ->
  exists o, field_of (PMDP_SHARED_MEMORY MAX_PATH) name = Some (name, o, DWORD)
            /\ 0 <= o <= 28.
Proof.
  unfold field_of. rewrite fields_SHARED. unfold header_field_names.
  cbn [In]. intros H.
  repeat (destruct H as [<-|H]; [eexists; split; [reflexivity | lia]|]).
  contradiction.
Qed.

(** A [DWORD] member found by name is the [k]-th of the eight, at [4 * k]. *)
Lemma field_of_DWORD name n o :
  field_of (PMDP_SHARED_MEMORY MAX_PATH) name = Some (n, o, DWORD) ->
  exists k, (k < 8)%nat /\ o = 4 * Z.of_nat k
            /\ nth_error header_field_names k = Some name.
Proof.
  unfold field_of. intros H. apply find_some in H. destruct H as [Hin Heq].
  cbn [fst] in Heq. apply String.eqb_eq in Heq. subst n.
  rewrite fields_SHARED in Hin. cbn [In] in Hin.
  destruct Hin as [Hin|Hin]; [inversion Hin; subst; exists 0%nat; repeat split; lia|].
  destruct Hin as [Hin|Hin]; [inversion Hin; subst; exists 1%nat; repeat split; lia|].
  destruct Hin as [Hin|Hin]; [inversion Hin; subst; exists 2%nat; repeat split; lia|].
  destruct Hin as [Hin|Hin]; [inversion Hin; subst; exists 3%nat; repeat split; lia|].
  destruct Hin as [Hin|Hin]; [inversion Hin; subst; exists 4%nat; repeat split; lia|].
  destruct Hin as [Hin|Hin]; [inversion Hin; subst; exists 5%nat; repeat split; lia|].
  destruct Hin as [Hin|Hin]; [inversion Hin; subst; exists 6%nat; repeat split; lia|].
  destruct Hin as [Hin|Hin]; [inversion Hin; subst; exists 7%nat; repeat split; lia|].
  destruct Hin as [Hin|[]]. inversion Hin.
Qed.


Lemma read_write_DWORD o v (m : list byte) :
  0 <= o -> o + 4 <= Z.of_nat (length m) ->
  dec_u32 (read_bytes o DWORD_size (write_bytes o (enc_u32 v) m)) = v mod 2 ^ 32.
Proof.
  intros Ho Hlen.
  change DWORD_size with (Z.of_nat (length (enc_u32 v))).
  rewrite read_write_same by (rewrite ?length_enc_u32; lia).
  unfold dec_u32, enc_u32. rewrite le_combine_split. reflexivity.
Qed.

End HeaderProofs.

(** X3. A header field assigned and read back by its name gives the value
    assigned, reduced modulo [2^32]: a value of 32 bits comes back as it
    is. *)
Theorem header_field_roundtrip (MAX_PATH : nat) (name : string) (v : Z)
    (m : list byte) :
  In name header_field_names ->
  32 <= Z.of_nat (length m) ->
  read_field MAX_PATH name (write_field MAX_PATH name v m) = Some (v mod 2 ^ 32)
  /\ (is_u32 v ->
      read_field MAX_PATH name (write_field MAX_PATH name v m) = Some v)
  /\ length (write_field MAX_PATH name v m) = length m.
Proof.
  intros Hin Hlen.
  destruct (field_of_header_name MAX_PATH name Hin) as (o & Ho & Hr).
  unfold read_field, write_field. rewrite Ho.
  rewrite read_write_DWORD by lia.
  split; [reflexivity|].
  split.
  - intros Hv. unfold is_u32 in Hv. rewrite Z.mod_small by lia. reflexivity.
  - apply length_write_bytes; rewrite ?length_enc_u32; lia.
Qed.

Lemma header_field_roundtrip_witness :
  read_field MAX_PATH_windows "dwFramePos"
    (write_field MAX_PATH_windows "dwFramePos" 8191 sample_memory)
  = Some 8191.
Proof.
  refine (proj1 (proj2 (header_field_roundtrip MAX_PATH_windows "dwFramePos"
                          8191 sample_memory _ _)) _).
  - cbn. tauto.
  - vm_compute. intros E; discriminate E.
  - unfold is_u32. lia.
Defined.



(** X5. Writing a frame into a slot of the ring array leaves every header
    field as it was. *)
Theorem write_frame_keeps_header (MAX_PATH : nat) (name : string) (i : Z)
    (r : pmdp_frame_data) (m : list byte) :
  wf_frame MAX_PATH r ->
  0 <= i ->
  slot_offset MAX_PATH i + sizeof (PMDP_FRAME_DATA MAX_PATH)
    <= Z.of_nat (length m) ->
  read_field MAX_PATH name (write_frame MAX_PATH (slot_offset MAX_PATH i) r m)
  = read_field MAX_PATH name m.
Proof.
  intros Hwf Hi Hlen. unfold read_field.
  destruct (field_of (PMDP_SHARED_MEMORY MAX_PATH) name)
    as [[[n o] t]|] eqn:E; [|reflexivity].
  destruct t; try reflexivity.
  apply field_of_DWORD in E. destruct E as (k & Hk & -> & _).
  pose proof (slot_offset_ge MAX_PATH i Hi) as Hge.
  f_equal. f_equal. unfold write_frame.
  eapply store_leaves_before.
  - apply leaves_chained.
  - exact Hlen.
  - apply frame_bytes_fits, Hwf.
  - lia.
  - unfold DWORD_size. lia.
  - unfold DWORD_size. lia.
Qed.

Lemma write_frame_keeps_header_witness :
  read_field MAX_PATH_windows "dwStatus"
    (write_frame MAX_PATH_windows (slot_offset MAX_PATH_windows 0)
       sample_frame sample_memory)
  = read_field MAX_PATH_windows "dwStatus" sample_memory.
Proof.
  apply (write_frame_keeps_header MAX_PATH_windows).
  - exact sample_frame_wf.
  - lia.
  - vm_compute. intros E; discriminate E.
Defined.

(** X6. Assigning a header field leaves the frame read from every slot of
    the ring array as it was. *)
Theorem write_field_keeps_frames (MAX_PATH : nat) (name : string) (v i : Z)
    (m : list byte) :
  In name header_field_names ->
  0 <= i ->
  32 <= Z.of_nat (length m) ->
  read_frame MAX_PATH (slot_offset MAX_PATH i) (write_field MAX_PATH name v m)
  = read_frame MAX_PATH (slot_offset MAX_PATH i) m.
Proof.
  intros Hin Hi Hlen.
  destruct (field_of_header_name MAX_PATH name Hin) as (o & Ho & Hr).
  unfold read_frame, write_field. rewrite Ho. f_equal.
  pose proof (slot_offset_ge MAX_PATH i Hi) as Hge.
  change (write_bytes o (enc_u32 v) m)
    with (store_leaves [(o, DWORD)] [enc_u32 v] m).
  eapply (load_leaves_store_apart [(o, DWORD)] _ _ _ o (o + 4)).
  - cbn [chained fst snd sizeof]. unfold DWORD_size. lia.
  - lia.
  - lia.
  - constructor; [|constructor]. cbn [snd sizeof].
    rewrite length_enc_u32. reflexivity.
  - apply leaves_chained.
  - lia.
  - unfold apart. lia.
Qed.

Lemma write_field_keeps_frames_witness :
  read_frame MAX_PATH_windows (slot_offset MAX_PATH_windows 1)
    (write_field MAX_PATH_windows "dwFrameCount" 7 sample_memory)
  = read_frame MAX_PATH_windows (slot_offset MAX_PATH_windows 1) sample_memory.
Proof.
  apply (write_field_keeps_frames MAX_PATH_windows).
  - cbn. tauto.
  - lia.
  - vm_compute. intros E; discriminate E.
Defined.

(** ** The version and the signature in memory *)

(** X7. A 32-bit version splits into a major and a minor part of 16 bits
    each and is put together again from them; its major part is [M] exactly
    for the versions from [M * 0x10000] to [M * 0x10000 + 0xFFFF], so the
    v1.x versions are the values [0x0001xxxx]. *)
Theorem version_decomposition (v : Z) :
  is_u32 v ->
  make_version (version_major v) (version_minor v) = v
  /\ 0 <= version_major v < 2 ^ 16
  /\ 0 <= version_minor v < 2 ^ 16
  /\ (forall M, version_major v = M <-> M * 2 ^ 16 <= v < (M + 1) * 2 ^ 16)
  /\ (version_major v = 1 <-> 0x00010000 <= v <= 0x0001FFFF).
Proof.
  unfold is_u32, make_version, version_major, version_minor. intros Hv.
  change 0xFFFF with (Z.ones 16). rewrite Z.land_ones by lia.
  rewrite Z.shiftl_mul_pow2, Z.shiftr_div_pow2 by lia.
  change (2 ^ 16) with 65536 in *. change (2 ^ 32) with 4294967296 in *.
  split; [Z.div_mod_to_equations; lia|].
  split; [Z.div_mod_to_equations; lia|].
  split; [Z.div_mod_to_equations; lia|].
  split.
  - intros M. split; intros H; Z.div_mod_to_equations; lia.
  - split; intros H; Z.div_mod_to_equations; lia.
Qed.

Lemma version_decomposition_witness :
  make_version (version_major 0x00010003) (version_minor 0x00010003) = 0x00010003.
Proof.
  refine (proj1 (version_decomposition 0x00010003 _)). unfold is_u32. lia.
Defined.

Lemma le_combine_4_eq (bs : list byte) (z : Z) :
  length bs = 4%nat -> (le_combine bs = z <-> bs = le_split 4 z /\ is_u32 z).
Proof.
  intros Hlen. split.
  - intros <-. split.
    + rewrite <- Hlen. symmetry. apply split_le_combine.
    + unfold is_u32. pose proof (le_combine_bound bs) as Hb.
      rewrite Hlen in Hb. exact Hb.
  - intros [-> Hz]. rewrite le_combine_split. apply Z.mod_small.
    unfold is_u32 in Hz. exact Hz.
Qed.

(** X8. In memory the signature is the first four bytes of the region: it
    reads as valid exactly when they are 50 44 4D 50 (the characters
    [PDMP], that is ['PMDP'] stored least significant byte first), and as
    torn down exactly when they are AD DE 00 00. *)
Theorem signature_in_memory (MAX_PATH : nat) (m : list byte) :
  32 <= Z.of_nat (length m) ->
  exists sig,
    read_field MAX_PATH "dwSignature" m = Some sig
    /\ is_u32 sig
    /\ (signature_state_of sig = SigValid <->
        take 4 m = [Byte.x50; Byte.x44; Byte.x4d; Byte.x50])
    /\ (signature_state_of sig = SigDead <->
        take 4 m = [Byte.xad; Byte.xde; Byte.x00; Byte.x00]).
Proof.
  intros Hlen.
  destruct (field_of_header_name MAX_PATH "dwSignature") as (o & Ho & _);
    [cbn; tauto|].
  assert (o = 0).
  { unfold field_of in Ho. rewrite fields_SHARED in Ho. cbn in Ho. congruence. }
  subst o. unfold read_field. rewrite Ho.
  change (read_bytes 0 DWORD_size m) with (take 4 m).
  assert (Hl : length (take 4 m) = 4%nat) by (rewrite length_take; lia).
  exists (dec_u32 (take 4 m)). split; [reflexivity|].
  unfold dec_u32.
  split.
  { unfold is_u32. pose proof (le_combine_bound (take 4 m)) as Hb.
    rewrite Hl in Hb. exact Hb. }
  rewrite signature_state_valid, signature_state_dead.
  rewrite !(le_combine_4_eq _ _ Hl).
  split; (split; [intros [H _]; exact H | intros H; split; [exact H|]]).
  - rewrite SIGNATURE_PMDP_value. unfold is_u32. lia.
  - unfold SIGNATURE_DEAD, is_u32. lia.
Qed.

Lemma signature_in_memory_witness :
  exists sig,
    read_field MAX_PATH_windows "dwSignature"
      (write_field MAX_PATH_windows "dwSignature" SIGNATURE_PMDP sample_memory)
    = Some sig.
Proof.
  destruct (signature_in_memory MAX_PATH_windows
              (write_field MAX_PATH_windows "dwSignature" SIGNATURE_PMDP
                 sample_memory)) as (sig & H & _).
  - vm_compute. intros E; discriminate E.
  - exists sig. exact H.
Defined.

(** ** The layout of a frame for every [MAX_PATH] *)

Lemma align_up_add_multiple b off a :
  0 < a -> (a | b) -> align_up (b + off) a = b + align_up off a.
Proof.
  intros Ha [q ->]. unfold align_up.
  replace (q * a + off + a - 1) with (q * a + (off + a - 1)) by lia.
  rewrite Z.div_add_l by lia. lia.
Qed.

Lemma align_up_4_8 n : align_up (align_up n 4 + 4) 8 = align_up (n + 4) 8.
Proof. unfold align_up. Z.div_mod_to_equations. lia. Qed.

Lemma member_offsets_cons off name t rest :
  member_offsets off (mcons name t rest) =
  (name, align_up off (alignof t), t)
    :: member_offsets (align_up off (alignof t) + sizeof t) rest.
Proof. reflexivity. Qed.

(** Members that start at a multiple of their alignment are laid out as
    from zero, moved by that multiple. *)
Lemma member_offsets_shift ms : forall b off,
  (members_align ms | b) ->
  member_offsets (b + off) ms =
  map (fun f => (fst (fst f), b + snd (fst f), snd f)) (member_offsets off ms).
Proof.
  induction ms as [|name t rest IH]; intros b off Hb; [reflexivity|].
  cbn [members_align] in Hb.
  destruct (is_alignment_divide_max (alignof t) (members_align rest))
    as [Ht Hr]; try apply alignof_is_alignment.
  rewrite !member_offsets_cons. cbn [map fst snd].
  rewrite align_up_add_multiple
    by (try apply alignof_pos; eapply Z.divide_trans; eassumption).
  f_equal. rewrite <- Z.add_assoc. apply IH.
  eapply Z.divide_trans; eassumption.
Qed.

Lemma members_end_shift ms : forall b off,
  (members_align ms | b) ->
  members_end (b + off) ms = b + members_end off ms.
Proof.
  induction ms as [|name t rest IH]; intros b off Hb; [reflexivity|].
  cbn [members_align] in Hb.
  destruct (is_alignment_divide_max (alignof t) (members_align rest))
    as [Ht Hr]; try apply alignof_is_alignment.
  rewrite !members_end_cons.
  rewrite align_up_add_multiple
    by (try apply alignof_pos; eapply Z.divide_trans; eassumption).
  rewrite <- Z.add_assoc. apply IH.
  eapply Z.divide_trans; eassumption.
Qed.

Section ClosedForm.

Variable MAX_PATH : nat.

Lemma SwapChainAddress_offset_aligned : (8 | SwapChainAddress_offset MAX_PATH).
Proof. apply align_up_divide. Qed.

Lemma SwapChainAddress_offset_bounds :
  Z.of_nat MAX_PATH + 4 <= SwapChainAddress_offset MAX_PATH
                        < Z.of_nat MAX_PATH + 12.
Proof.
  unfold SwapChainAddress_offset, align_up. Z.div_mod_to_equations. lia.
Qed.

Lemma fields_V1_explicit :
  fields (PM_FRAME_DATA_V1 MAX_PATH) =
  [ ("Application"%string, 0, char_array MAX_PATH);
    ("ProcessID"%string, align_up (Z.of_nat MAX_PATH) 4, uint32_t) ]
  ++ map (fun f => (fst (fst f), SwapChainAddress_offset MAX_PATH + snd (fst f),
                    snd f))
       [ ("SwapChainAddress"%string, 0, uint64_t);
         ("Runtime"%string, 8, uint32_t);
         ("SyncInterval"%string, 12, int32_t);
         ("PresentFlags"%string, 16, uint32_t);
         ("Dropped"%string, 20, uint32_t);
         ("TimeInSeconds"%string, 24, double);
         ("msInPresentAPI"%string, 32, double);
         ("msBetweenPresents"%string, 40, double);
         ("AllowsTearing"%string, 48, uint32_t);
         ("PresentMode"%string, 52, uint32_t);
         ("msUntilRenderComplete"%string, 56, double);
         ("msUntilDisplayed"%string, 64, double);
         ("msBetweenDisplayChange"%string, 72, double);
         ("msUntilRenderStart"%string, 80, double);
         ("qpcTime"%string, 88, uint64_t);
         ("msSinceInput"%string, 96, double);
         ("msGpuActive"%string, 104, double);
         ("msGpuVideoActive"%string, 112, double) ].
Proof.
  unfold PM_FRAME_DATA_V1. cbn [fields members_of].
  rewrite !(member_offsets_cons _ "Application"),
    !(member_offsets_cons _ "ProcessID").
  change (alignof (char_array MAX_PATH)) with 1.
  change (sizeof (char_array MAX_PATH)) with (Z.of_nat MAX_PATH).
  change (alignof uint32_t) with 4. change (sizeof uint32_t) with 4.
  change (align_up 0 1) with 0. rewrite Z.add_0_l.
  cbn [app]. f_equal. f_equal.
  pose proof SwapChainAddress_offset_aligned as Hal.
  pose proof (align_up_4_8 (Z.of_nat MAX_PATH)) as Hb.
  fold (SwapChainAddress_offset MAX_PATH) in Hb.
  revert Hal Hb. generalize (SwapChainAddress_offset MAX_PATH).
  generalize (align_up (Z.of_nat MAX_PATH) 4 + 4). intros c b Hal Hb.
  rewrite member_offsets_cons. change (alignof uint64_t) with 8.
  change (sizeof uint64_t) with 8. rewrite Hb.
  cbn [map fst snd]. rewrite Z.add_0_r. f_equal.
  rewrite member_offsets_shift by exact Hal.
  reflexivity.
Qed.

Lemma sizeof_V1_explicit :
  sizeof (PM_FRAME_DATA_V1 MAX_PATH) = SwapChainAddress_offset MAX_PATH + 120.
Proof.
  unfold PM_FRAME_DATA_V1. cbn [members_of].
  rewrite sizeof_struct.
  rewrite !(members_end_cons _ "Application"),
    !(members_end_cons _ "ProcessID"), !(members_end_cons _ "SwapChainAddress").
  change (members_align _) with 8.
  change (alignof (char_array MAX_PATH)) with 1.
  change (sizeof (char_array MAX_PATH)) with (Z.of_nat MAX_PATH).
  change (alignof uint32_t) with 4. change (sizeof uint32_t) with 4.
  change (alignof uint64_t) with 8. change (sizeof uint64_t) with 8.
  change (align_up 0 1) with 0. rewrite Z.add_0_l.
  rewrite align_up_4_8. fold (SwapChainAddress_offset MAX_PATH).
  pose proof SwapChainAddress_offset_aligned as Hal.
  revert Hal. generalize (SwapChainAddress_offset MAX_PATH). intros b Hal.
  rewrite members_end_shift by exact Hal.
  change (members_end 8 _) with 120.
  apply align_up_fixed; [lia|].
  apply Z.divide_add_r; [exact Hal | exists 15; reflexivity].
Qed.

Lemma member_leaves_scalar ms : forall base off,
  members_scalar ms = true ->
  member_leaves base off ms =
  map (fun f => (base + snd (fst f), snd f)) (member_offsets off ms).
Proof.
  induction ms as [|name t rest IH]; intros base off H; [reflexivity|].
  cbn [members_scalar] in H. apply andb_prop in H. destruct H as [Ht Hr].
  cbn [member_leaves member_offsets map fst snd]. rewrite IH by exact Hr.
  destruct t; try discriminate Ht; reflexivity.
Qed.

Lemma leaves_FRAME_fields base :
  leaves base (PMDP_FRAME_DATA MAX_PATH) =
  map (fun f => (base + snd (fst f), snd f)) (fields (PM_FRAME_DATA_V1 MAX_PATH))
  ++ map (fun f => (base + sizeof (PM_FRAME_DATA_V1 MAX_PATH) + snd (fst f), snd f))
       (fields PM_FRAME_DATA_V2).
Proof.
  rewrite leaves_FRAME.
  assert (H1 : forall c, leaves c (PM_FRAME_DATA_V1 MAX_PATH) =
            map (fun f => (c + snd (fst f), snd f))
              (fields (PM_FRAME_DATA_V1 MAX_PATH))).
  { intros c. unfold PM_FRAME_DATA_V1. cbn [leaves fields members_of].
    apply member_leaves_scalar. reflexivity. }
  assert (H2 : forall c, leaves c PM_FRAME_DATA_V2 =
            map (fun f => (c + snd (fst f), snd f)) (fields PM_FRAME_DATA_V2)).
  { intros c. unfold PM_FRAME_DATA_V2. cbn [leaves fields members_of].
    apply member_leaves_scalar. reflexivity. }
  rewrite H1, H2. reflexivity.
Qed.

End ClosedForm.

Lemma fields_V2_explicit :
  fields PM_FRAME_DATA_V2 =
  [ ("CPUStart"%string, 0, uint64_t); ("Frametime"%string, 8, double);
    ("CPUBusy"%string, 16, double); ("CPUWait"%string, 24, double);
    ("GPULatency"%string, 32, double); ("GPUTime"%string, 40, double);
    ("GPUBusy"%string, 48, double); ("VideoBusy"%string, 56, double);
    ("GPUWait"%string, 64, double); ("DisplayLatency"%string, 72, double);
    ("DisplayedTime"%string, 80, double); ("AnimationError"%string, 88, double);
    ("ClickToPhotonLatency"%string, 96, double) ].
Proof. reflexivity. Qed.

(** X9. For every [MAX_PATH] the base record has the name at offset 0, the
    process id at the next multiple of 4, and [SwapChainAddress] at the next
    multiple of 8 after the two, that is at [MAX_PATH + 4] rounded up; all
    later members follow at fixed distances from there without padding, and
    the record is 120 bytes longer than that offset. *)
Theorem base_record_layout (MAX_PATH : nat) :
  fields (PM_FRAME_DATA_V1 MAX_PATH) =
    [ ("Application"%string, 0, char_array MAX_PATH);
      ("ProcessID"%string, align_up (Z.of_nat MAX_PATH) 4, uint32_t) ]
    ++ map (fun f => (fst (fst f), SwapChainAddress_offset MAX_PATH + snd (fst f),
                      snd f))
         [ ("SwapChainAddress"%string, 0, uint64_t);
           ("Runtime"%string, 8, uint32_t);
           ("SyncInterval"%string, 12, int32_t);
           ("PresentFlags"%string, 16, uint32_t);
           ("Dropped"%string, 20, uint32_t);
           ("TimeInSeconds"%string, 24, double);
           ("msInPresentAPI"%string, 32, double);
           ("msBetweenPresents"%string, 40, double);
           ("AllowsTearing"%string, 48, uint32_t);
           ("PresentMode"%string, 52, uint32_t);
           ("msUntilRenderComplete"%string, 56, double);
           ("msUntilDisplayed"%string, 64, double);
           ("msBetweenDisplayChange"%string, 72, double);
           ("msUntilRenderStart"%string, 80, double);
           ("qpcTime"%string, 88, uint64_t);
           ("msSinceInput"%string, 96, double);
           ("msGpuActive"%string, 104, double);
           ("msGpuVideoActive"%string, 112, double) ]
  /\ sizeof (PM_FRAME_DATA_V1 MAX_PATH) = SwapChainAddress_offset MAX_PATH + 120
  /\ Z.of_nat MAX_PATH <= align_up (Z.of_nat MAX_PATH) 4 < Z.of_nat MAX_PATH + 4
  /\ align_up (Z.of_nat MAX_PATH) 4 + 4 <= SwapChainAddress_offset MAX_PATH
  /\ SwapChainAddress_offset MAX_PATH < Z.of_nat MAX_PATH + 12
  /\ (8 | SwapChainAddress_offset MAX_PATH).
Proof.
  split; [apply fields_V1_explicit|].
  split; [apply sizeof_V1_explicit|].
  split; [unfold align_up; Z.div_mod_to_equations; lia|].
  split; [unfold SwapChainAddress_offset, align_up; Z.div_mod_to_equations; lia|].
  split; [apply SwapChainAddress_offset_bounds|].
  apply SwapChainAddress_offset_aligned.
Qed.

Lemma leaves_FRAME_explicit (MAX_PATH : nat) (base : Z) :
  leaves base (PMDP_FRAME_DATA MAX_PATH) =
  (base + 0, char_array MAX_PATH)
  :: (base + align_up (Z.of_nat MAX_PATH) 4, uint32_t)
  :: map (fun l => (base + SwapChainAddress_offset MAX_PATH + fst l, snd l))
       [ (0, uint64_t); (8, uint32_t); (12, int32_t); (16, uint32_t);
         (20, uint32_t); (24, double); (32, double); (40, double);
         (48, uint32_t); (52, uint32_t); (56, double); (64, double);
         (72, double); (80, double); (88, uint64_t); (96, double);
         (104, double); (112, double);
         (120, uint64_t); (128, double); (136, double); (144, double);
         (152, double); (160, double); (168, double); (176, double);
         (184, double); (192, double); (200, double); (208, double);
         (216, double) ].
Proof.
  rewrite leaves_FRAME_fields, fields_V1_explicit, fields_V2_explicit,
    sizeof_V1_explicit.
  generalize (SwapChainAddress_offset MAX_PATH).
  generalize (align_up (Z.of_nat MAX_PATH) 4). intros a b.
  cbn [map app fst snd].
  repeat (f_equal; try lia).
Qed.

(** X10. For every [MAX_PATH] a ring entry is 224 bytes longer than the
    offset of [SwapChainAddress]: its size is a multiple of 8 between
    [MAX_PATH + 228] and [MAX_PATH + 235], so an entry holds fewer than 8
    bytes of padding.  The members of the extended record lie at that offset
    plus 120, 128, ..., 216. *)
Theorem frame_size_formula (MAX_PATH : nat) (base : Z) :
  sizeof (PMDP_FRAME_DATA MAX_PATH) = SwapChainAddress_offset MAX_PATH + 224
  /\ Z.of_nat MAX_PATH + 228 <= sizeof (PMDP_FRAME_DATA MAX_PATH)
       < Z.of_nat MAX_PATH + 236
  /\ (8 | sizeof (PMDP_FRAME_DATA MAX_PATH))
  /\ leaves base (PMDP_FRAME_DATA MAX_PATH) =
     (base + 0, char_array MAX_PATH)
     :: (base + align_up (Z.of_nat MAX_PATH) 4, uint32_t)
     :: map (fun l => (base + SwapChainAddress_offset MAX_PATH + fst l, snd l))
          [ (0, uint64_t); (8, uint32_t); (12, int32_t); (16, uint32_t);
            (20, uint32_t); (24, double); (32, double); (40, double);
            (48, uint32_t); (52, uint32_t); (56, double); (64, double);
            (72, double); (80, double); (88, uint64_t); (96, double);
            (104, double); (112, double);
            (120, uint64_t); (128, double); (136, double); (144, double);
            (152, double); (160, double); (168, double); (176, double);
            (184, double); (192, double); (200, double); (208, double);
            (216, double) ].
Proof.
  pose proof (SwapChainAddress_offset_bounds MAX_PATH) as Hb.
  pose proof (SwapChainAddress_offset_aligned MAX_PATH) as Hal.
  assert (Hs : sizeof (PMDP_FRAME_DATA MAX_PATH)
               = SwapChainAddress_offset MAX_PATH + 224)
    by (rewrite sizeof_FRAME, sizeof_V1_explicit; lia).
  split; [exact Hs|].
  split; [lia|].
  split; [apply sizeof_FRAME_aligned|].
  apply leaves_FRAME_explicit.
Qed.

(** ** Every content of a slot is a frame *)

Lemma length_read_bytes o n (m : list byte) :
  0 <= o -> 0 <= n -> o + n <= Z.of_nat (length m) ->
  Z.of_nat (length (read_bytes o n m)) = n.
Proof.
  intros Ho Hn Hlen. unfold read_bytes. rewrite length_take, length_drop. lia.
Qed.

Lemma write_read_same o n (m : list byte) :
  0 <= o -> 0 <= n -> o + n <= Z.of_nat (length m) ->
  write_bytes o (read_bytes o n m) m = m.
Proof.
  intros Ho Hn Hlen. unfold write_bytes.
  assert (Hl : length (read_bytes o n m) = Z.to_nat n)
    by (pose proof (length_read_bytes o n m Ho Hn Hlen); lia).
  rewrite Hl. unfold read_bytes.
  rewrite <- drop_drop, take_drop. apply take_drop.
Qed.

Lemma load_leaves_fits ls : forall (m : list byte) lo hi,
  chained lo ls hi -> 0 <= lo -> hi <= Z.of_nat (length m) ->
  fits ls (load_leaves ls m).
Proof.
  induction ls as [|[o t] ls IH]; intros m lo hi Hc Hlo Hhi; cbn [load_leaves map].
  - constructor.
  - cbn [chained fst snd] in Hc. destruct Hc as [Ha Hb].
    pose proof (chained_le _ _ _ Hb). pose proof (sizeof_nonneg t).
    constructor.
    + cbn [fst snd]. apply length_read_bytes; lia.
    + apply (IH m (o + sizeof t) hi); auto; lia.
Qed.

Lemma store_load_leaves ls : forall (m : list byte) lo hi,
  chained lo ls hi -> 0 <= lo -> hi <= Z.of_nat (length m) ->
  store_leaves ls (load_leaves ls m) m = m.
Proof.
  induction ls as [|[o t] ls IH]; intros m lo hi Hc Hlo Hhi;
    cbn [load_leaves map store_leaves]; [reflexivity|].
  cbn [chained fst snd] in *. destruct Hc as [Ha Hb].
  pose proof (chained_le _ _ _ Hb). pose proof (sizeof_nonneg t).
  rewrite write_read_same by lia.
  apply (IH m (o + sizeof t) hi); auto; lia.
Qed.

Lemma enc_dec_u32 bs : Z.of_nat (length bs) = 4 -> enc_u32 (dec_u32 bs) = bs.
Proof.
  intros H. unfold enc_u32, dec_u32.
  replace 4%nat with (length bs) by lia. apply split_le_combine.
Qed.

Lemma enc_dec_u64 bs : Z.of_nat (length bs) = 8 -> enc_u64 (dec_u64 bs) = bs.
Proof.
  intros H. unfold enc_u64, dec_u64.
  replace 8%nat with (length bs) by lia. apply split_le_combine.
Qed.

Lemma enc_dec_double bs :
  Z.of_nat (length bs) = 8 -> enc_double (dec_double bs) = bs.
Proof. exact (enc_dec_u64 bs). Qed.

Lemma enc_dec_i32 bs : Z.of_nat (length bs) = 4 -> enc_i32 (dec_i32 bs) = bs.
Proof.
  intros H. unfold enc_i32, dec_i32.
  apply le_combine_inj; [rewrite length_le_split; lia|].
  rewrite le_combine_split. change (2 ^ (Z.of_nat 4 * 8)) with (2 ^ 32).
  pose proof (le_combine_bound bs) as Hb.
  replace (8 * Z.of_nat (length bs)) with 32 in Hb by lia.
  destruct (Z.ltb_spec (le_combine bs) (2 ^ 31)).
  - apply Z.mod_small. lia.
  - replace (le_combine bs - 2 ^ 32) with (le_combine bs + (-1) * 2 ^ 32) by lia.
    rewrite Z.mod_add by lia. apply Z.mod_small. lia.
Qed.

Lemma dec_u32_range bs : Z.of_nat (length bs) = 4 -> is_u32 (dec_u32 bs).
Proof.
  intros H. unfold is_u32, dec_u32. pose proof (le_combine_bound bs) as Hb.
  replace (8 * Z.of_nat (length bs)) with 32 in Hb by lia. exact Hb.
Qed.

Lemma dec_u64_range bs : Z.of_nat (length bs) = 8 -> is_u64 (dec_u64 bs).
Proof.
  intros H. unfold is_u64, dec_u64. pose proof (le_combine_bound bs) as Hb.
  replace (8 * Z.of_nat (length bs)) with 64 in Hb by lia. exact Hb.
Qed.

Lemma dec_double_range bs : Z.of_nat (length bs) = 8 -> is_u64 (dec_double bs).
Proof. exact (dec_u64_range bs). Qed.

Lemma dec_i32_range bs : Z.of_nat (length bs) = 4 -> is_i32 (dec_i32 bs).
Proof.
  intros H. unfold is_i32, dec_i32. pose proof (le_combine_bound bs) as Hb.
  replace (8 * Z.of_nat (length bs)) with 32 in Hb by lia.
  destruct (Z.ltb_spec (le_combine bs) (2 ^ 31)); lia.
Qed.

Lemma frame_of_bytes_fits (MAX_PATH : nat) (base : Z) (l : list (list byte)) :
  fits (leaves base (PMDP_FRAME_DATA MAX_PATH)) l ->
  exists r, frame_of_bytes l = Some r /\ wf_frame MAX_PATH r /\ frame_bytes r = l.
Proof.
  rewrite leaves_FRAME_explicit. unfold fits. cbn [map fst snd].
  intros H.
  repeat (apply Forall2_cons_inv_l in H;
          destruct H as (? & ? & ? & H & ->)).
  apply Forall2_nil_inv_l in H. subst.
  cbn [fst snd sizeof] in *.
  eexists. split; [reflexivity|].
  split.
  - split; [unfold wf_v1 | unfold wf_v2]; cbn [data1 data2 Application ProcessID
      SwapChainAddress Runtime SyncInterval PresentFlags Dropped TimeInSeconds
      msInPresentAPI msBetweenPresents AllowsTearing PresentMode
      msUntilRenderComplete msUntilDisplayed msBetweenDisplayChange
      msUntilRenderStart qpcTime msSinceInput msGpuActive msGpuVideoActive
      CPUStart Frametime CPUBusy CPUWait GPULatency GPUTime GPUBusy VideoBusy
      GPUWait DisplayLatency DisplayedTime AnimationError ClickToPhotonLatency];
      repeat split;
      first [ apply dec_u32_range; assumption | apply dec_u64_range; assumption
            | apply dec_i32_range; assumption
            | apply dec_double_range; assumption | lia ].
  - unfold frame_bytes, v1_bytes, v2_bytes.
    cbn [data1 data2 Application ProcessID
      SwapChainAddress Runtime SyncInterval PresentFlags Dropped TimeInSeconds
      msInPresentAPI msBetweenPresents AllowsTearing PresentMode
      msUntilRenderComplete msUntilDisplayed msBetweenDisplayChange
      msUntilRenderStart qpcTime msSinceInput msGpuActive msGpuVideoActive
      CPUStart Frametime CPUBusy CPUWait GPULatency GPUTime GPUBusy VideoBusy
      GPUWait DisplayLatency DisplayedTime AnimationError ClickToPhotonLatency app].
    rewrite ?enc_dec_u32, ?enc_dec_u64, ?enc_dec_i32, ?enc_dec_double
      by assumption.
    reflexivity.
Qed.

(** X11. Whatever bytes a slot holds, reading it gives a frame whose fields
    are values of their C types, and writing that frame back into the slot
    leaves the memory as it is. *)
Theorem read_frame_total (MAX_PATH : nat) (base : Z) (m : list byte) :
  0 <= base ->
  base + sizeof (PMDP_FRAME_DATA MAX_PATH) <= Z.of_nat (length m) ->
  exists r,
    read_frame MAX_PATH base m = Some r
    /\ wf_frame MAX_PATH r
    /\ write_frame MAX_PATH base r m = m.
Proof.
  intros Hbase Hlen.
  pose proof (proj1 leaves_chained (PMDP_FRAME_DATA MAX_PATH) base) as Hc.
  destruct (frame_of_bytes_fits MAX_PATH base
              (load_leaves (leaves base (PMDP_FRAME_DATA MAX_PATH)) m))
    as (r & Hr & Hwf & Hb).
  { eapply load_leaves_fits; eauto. }
  exists r. split; [exact Hr|]. split; [exact Hwf|].
  unfold write_frame. rewrite Hb.
  eapply store_load_leaves; eauto.
Qed.

Lemma read_frame_total_witness :
  exists r, read_frame MAX_PATH_windows 32 sample_memory = Some r
            /\ wf_frame MAX_PATH_windows r.
Proof.
  destruct (read_frame_total MAX_PATH_windows 32 sample_memory)
    as (r & H1 & H2 & _).
  - lia.
  - vm_compute. intros E; discriminate E.
  - exists r. split; assumption.
Defined.
